(** * socket.io namespace: admission pipeline, registry and broadcast surface

    A shallow embedding of [lib/namespace.ts].  The namespace object, the
    transports it reads, the [process.nextTick] queue and the calls made to
    collaborators live in one explicit [World]; every method is a function
    on worlds. *)

From stdpp Require Import gmap strings list fin_maps.
From Stdlib Require Import ZArith.


(** ** JavaScript values

    [ExtendedError.data] is typed [any]; the fragment below is what the
    error payloads are built from.  Numbers are the integer-valued ones. *)

#[warnings="-register-all"]
Inductive JsVal :=
| JUndefined
| JNull
| JBool (b : bool)
| JNum (n : Z)
| JStr (s : string)
| JObj (fields : list (string * JsVal)).

(** ToBoolean: [undefined], [null], [false], [0] and the empty string are
    falsy, everything else is truthy. *)
Definition truthy (v : JsVal) : bool :=
  match v with
  | JUndefined | JNull => false
  | JBool b => b
  | JNum n => negb (n =? 0)%Z
  | JStr s => negb (String.eqb s "")
  | JObj _ => true
  end.

(** [a || b] *)
Definition js_or (a b : JsVal) : JsVal := if truthy a then a else b.


(** [interface ExtendedError extends Error { data?: any }]; an absent
    [data] reads as [undefined]. *)
Record ExtendedError := {
  message : string;
  data : JsVal;
}.

(** ** Collaborators *)

(** [client.conn]: the transport, read through the fields the namespace
    uses.  A client holds a reference to it; the transport itself changes
    behind the namespace's back, so it lives in the world. *)
Record Conn := {
  readyState : string;
  protocol : Z;
}.

Record Client := {
  conn : nat;
}.

(** The session built by [new Socket(this, client, query)].  Its identifier
    is chosen by the constructor. *)
Record Socket := {
  socket_id : string;
  socket_client : Client;
  socket_query : JsVal;
}.

(** Middleware functions and completion callbacks are user code; the
    namespace stores and calls them, so they are named here and given
    their behaviour by a table ([code] below). *)
Abbreviation MwId := nat (only parsing).
Abbreviation CbId := nat (only parsing).

(** What a middleware can do with what it is handed while it runs: call
    its continuation (any number of times), register more middleware on
    the namespace, or take time during which a transport changes state.
    A body is run to its end on the stack that called it, a call of the
    continuation being nested in it. *)
Inductive MwAct :=
| ActNext (err : option ExtendedError)
| ActUse (fn : MwId)
| ActReadyState (c : nat) (st : string).

(** ** The namespace and its world *)

Record Namespace := {
  name : string;
  sockets : gmap string Socket;
  adapter : nat;
  _fns : list MwId;
  _ids : nat;
}.

(** The closure handed to [process.nextTick] in [_add]: it captures the
    socket, the client, the error the chain ended with and the optional
    completion callback. *)
Record Task := {
  t_socket : Socket;
  t_client : Client;
  t_err : option ExtendedError;
  t_fn : option CbId;
}.

(** Effects of the namespace in the order they happen: writes to
    [sockets] and calls to collaborators. *)
Inductive Event :=
| MiddlewareCall (i : nat) (fn : MwId) (sid : string)
| SocketsSet (sid : string)
| SocketsDelete (sid : string)
| SocketError (sid : string) (payload : JsVal)
| SocketOnconnect (sid : string)
| CallbackCall (cb : CbId)
| SuperEmit (ev : string) (sid : string).

(** ** Broadcast operators and adapters

    [new BroadcastOperator(adapter)] builds an object; the objects built
    so far are the [operators] of the world, addressed by position. *)

(** [Room | Room[]] *)
Inductive RoomArg :=
| OneRoom (r : string)
| ManyRooms (rs : list string).

Definition room_labels (room : RoomArg) : gset string :=
  match room with
  | OneRoom r => {[ r ]}
  | ManyRooms rs => list_to_set rs
  end.

(** Modelled from the spec: the fields of a broadcast operator
    ([lib/broadcast-operator.ts] is not part of the sources at hand): the
    adapter it is bound to and the broadcast intent [{rooms, exceptRooms,
    flags}]. *)
Record BroadcastOperator := {
  op_adapter : nat;
  rooms : gset string;
  exceptRooms : gset string;
  flags : gmap string bool;
}.

Record Packet := {
  packet_event : string;
  packet_args : list JsVal;
}.

(** One call of the adapter's broadcast primitive. *)
Record Broadcast := {
  b_packet : Packet;
  b_rooms : gset string;
  b_except : gset string;
  b_flags : gmap string bool;
}.

(** Modelled from the spec: the adapter ([socket.io-adapter] is not part
    of the sources at hand): the rooms every endpoint of the namespace is
    a member of, and the calls its broadcast primitive has received. *)
Record AdapterState := {
  sids : gmap string (gset string);
  broadcasts : list Broadcast;
}.

Record World := {
  nsp : Namespace;
  conns : nat -> Conn;
  ticks : list Task;
  trace : list Event;
  debug_log : list string;
  operators : list BroadcastOperator;
  adapters : nat -> AdapterState;
}.

(** A statement of a [void] method. *)
Abbreviation M := (World -> World) (only parsing).

Definition with_nsp (f : Namespace -> Namespace) : M := fun w =>
  {| nsp := f (nsp w); conns := conns w; ticks := ticks w;
     trace := trace w; debug_log := debug_log w;
     operators := operators w; adapters := adapters w |}.

Definition with_conns (f : (nat -> Conn) -> nat -> Conn) : M := fun w =>
  {| nsp := nsp w; conns := f (conns w); ticks := ticks w;
     trace := trace w; debug_log := debug_log w;
     operators := operators w; adapters := adapters w |}.

Definition with_ticks (f : list Task -> list Task) : M := fun w =>
  {| nsp := nsp w; conns := conns w; ticks := f (ticks w);
     trace := trace w; debug_log := debug_log w;
     operators := operators w; adapters := adapters w |}.

Definition emit_event (e : Event) : M := fun w =>
  {| nsp := nsp w; conns := conns w; ticks := ticks w;
     trace := trace w ++ [e]; debug_log := debug_log w;
     operators := operators w; adapters := adapters w |}.

Definition debug (msg : string) : M := fun w =>
  {| nsp := nsp w; conns := conns w; ticks := ticks w;
     trace := trace w; debug_log := debug_log w ++ [msg];
     operators := operators w; adapters := adapters w |}.

Definition with_operators
    (f : list BroadcastOperator -> list BroadcastOperator) : M := fun w =>
  {| nsp := nsp w; conns := conns w; ticks := ticks w;
     trace := trace w; debug_log := debug_log w;
     operators := f (operators w); adapters := adapters w |}.

Definition with_adapters
    (f : (nat -> AdapterState) -> nat -> AdapterState) : M := fun w =>
  {| nsp := nsp w; conns := conns w; ticks := ticks w;
     trace := trace w; debug_log := debug_log w;
     operators := operators w; adapters := f (adapters w) |}.

Definition set_sockets (f : gmap string Socket -> gmap string Socket)
    (n : Namespace) : Namespace :=
  {| name := name n; sockets := f (sockets n); adapter := adapter n;
     _fns := _fns n; _ids := _ids n |}.

Definition set_fns (f : list MwId -> list MwId) (n : Namespace) : Namespace :=
  {| name := name n; sockets := sockets n; adapter := adapter n;
     _fns := f (_fns n); _ids := _ids n |}.

(** [this.sockets.set(socket.id, socket)] *)
Definition sockets_set (s : Socket) : M := fun w =>
  emit_event (SocketsSet (socket_id s))
    (with_nsp (set_sockets (insert (socket_id s) s)) w).

(** [this.sockets.delete(socket.id)] *)
Definition sockets_delete (s : Socket) : M := fun w =>
  emit_event (SocketsDelete (socket_id s))
    (with_nsp (set_sockets (delete (socket_id s))) w).

(** [socket._error(payload)], [socket._onconnect()], [fn()] and
    [super.emit(ev, socket)] belong to collaborators: each is recorded as
    a call. *)
Definition socket_error (s : Socket) (payload : JsVal) : M :=
  emit_event (SocketError (socket_id s) payload).

Definition socket_onconnect (s : Socket) : M :=
  emit_event (SocketOnconnect (socket_id s)).

Definition call_fn (fn : option CbId) : M :=
  match fn with
  | Some cb => emit_event (CallbackCall cb)
  | None => fun w => w
  end.

Definition super_emit (ev : string) (s : Socket) : M :=
  emit_event (SuperEmit ev (socket_id s)).

(** [process.nextTick(task)] *)
Definition next_tick (t : Task) : M := with_ticks (fun q => q ++ [t]).

(** The transport of client [c] moves to state [st]. *)
Definition set_ready_state (c : nat) (st : string) : M :=
  with_conns (fun cs c' =>
    if decide (c' = c)
    then {| readyState := st; protocol := protocol (cs c) |}
    else cs c').

(** ** Namespace methods *)

(** [use(fn)]: [this._fns.push(fn); return this] *)
Definition use (fn : MwId) : M := with_nsp (set_fns (fun fns => fns ++ [fn])).

Section Admission.

(** The body of every middleware function, as the actions it performs on
    the session it is given, in order. *)
Variable code : MwId -> Socket -> list MwAct.

Definition exec_act (next : option ExtendedError -> M) (a : MwAct) : M :=
  match a with
  | ActNext err => next err
  | ActUse fn => use fn
  | ActReadyState c st => set_ready_state c st
  end.

Definition exec_body (next : option ExtendedError -> M) (body : list MwAct) : M :=
  fun w => fold_left (fun w a => exec_act next a w) body w.

(** [fns[i](socket, next)] *)
Definition call_middleware (i : nat) (f : MwId) (socket : Socket)
    (next : option ExtendedError -> M) : M := fun w =>
  exec_body next (code f socket)
    (emit_event (MiddlewareCall i f (socket_id socket)) w).

(** The inner [run(i)] of [Namespace.run], with [f] = [fns[i]] and [rest]
    the entries of the snapshot after it, so that [fns[i + 1]] is the head
    of [rest] and is undefined when [rest] is empty. *)
Fixpoint run_from (socket : Socket) (fn : option ExtendedError -> M)
    (i : nat) (f : MwId) (rest : list MwId) {struct rest} : M :=
  call_middleware i f socket (fun err =>
    match err with
    | Some e => fn (Some e)
    | None =>
        match rest with
        | [] => fn None
        | g :: rest' => run_from socket fn (i + 1) g rest'
        end
    end).

(** [Namespace.run(socket, fn)]: the chain is copied ([slice(0)]) before
    anything runs. *)
Definition run (socket : Socket) (fn : option ExtendedError -> M) : M := fun w =>
  let fns := _fns (nsp w) in
  match fns with
  | [] => fn None w
  | f :: rest => run_from socket fn 0 f rest w
  end.

(** The function scheduled by [_add] for the next tick. *)
Definition deferred (t : Task) : M := fun w =>
  let socket := t_socket t in
  let c := conns w (conn (t_client t)) in
  if String.eqb "open" (readyState c) then
    match t_err t with
    | Some err =>
        if (protocol c =? 3)%Z then
          socket_error socket (js_or (data err) (JStr (message err))) w
        else
          socket_error socket
            (JObj [("message", JStr (message err)); ("data", data err)]) w
    | None =>
        let w := sockets_set socket w in
        let w := socket_onconnect socket w in
        let w := call_fn (t_fn t) w in
        let w := super_emit "connect" socket w in
        super_emit "connection" socket w
    end
  else
    debug "next called after client was closed - ignoring socket" w.

(** [_add(client, query, fn)]; [sid] is the identifier the [Socket]
    constructor gives the new session. *)
Definition _add (sid : string) (client : Client) (query : JsVal)
    (fn : option CbId) : World -> Socket * World := fun w =>
  let w := debug ("adding socket to nsp " +:+ name (nsp w)) w in
  let socket := {| socket_id := sid; socket_client := client;
                   socket_query := query |} in
  let w := run socket (fun err =>
             next_tick {| t_socket := socket; t_client := client;
                          t_err := err; t_fn := fn |}) w in
  (socket, w).

(** The next-tick queue is emptied once the current call stack has
    unwound: the queued functions run in order. *)
Definition run_ticks : M := fun w =>
  fold_left (fun w t => deferred t w) (ticks w) (with_ticks (fun _ => []) w).

End Admission.

(** [_remove(socket)] *)
Definition _remove (socket : Socket) : M := fun w =>
  if decide (is_Some (sockets (nsp w) !! socket_id socket)) then
    sockets_delete socket w
  else
    debug ("ignoring remove for " +:+ socket_id socket) w.

(** ** Broadcast surface *)

(** Modelled from the spec: the adapter's resolution of a broadcast
    intent: the endpoints that are members of any room in [rooms] (all
    endpoints of the namespace if [rooms] is empty) and of none of the
    rooms in [exceptRooms]. *)
Definition rooms_of (a : AdapterState) (sid : string) : gset string :=
  default ∅ (sids a !! sid).

Definition targeted (a : AdapterState) (rs ex : gset string) (sid : string) : bool :=
  (bool_decide (rs = ∅) || bool_decide (rs ∩ rooms_of a sid ≠ ∅))
  && bool_decide (ex ∩ rooms_of a sid = ∅).

Definition adapter_sockets (a : AdapterState) (rs ex : gset string) : gset string :=
  filter (fun sid => targeted a rs ex sid = true) (dom (sids a)).

Definition adapter_broadcast (b : Broadcast) (a : AdapterState) : AdapterState :=
  {| sids := sids a; broadcasts := broadcasts a ++ [b] |}.

(** Modelled from the spec: the event names [emit] refuses. *)
Definition RESERVED_EVENTS : list string :=
  ["connect"; "connecting"; "connection"; "disconnect"; "disconnecting";
   "newListener"; "removeListener"].

(** The error [emit] throws, or the value it returns. *)
Inductive EmitResult :=
| Thrown (msg : string)
| Returned (b : bool).

(** The calls that derive an operator: [to], [in], [except], [compress],
    [volatile] and [local]. *)
Inductive Derive :=
| To (room : RoomArg)
| In_ (room : RoomArg)
| Except (room : RoomArg)
| Compress (b : bool)
| Volatile
| Local_.

(** Modelled from the spec: the methods of [BroadcastOperator]
    ([lib/broadcast-operator.ts] is not part of the sources at hand).
    [self] is the receiver as it stands when the method is called. *)
Module Operator.

(** [new BroadcastOperator(adapter, rooms, exceptRooms, flags)] *)
Definition new (b : BroadcastOperator) : World -> nat * World := fun w =>
  (length (operators w), with_operators (fun ops => ops ++ [b]) w).

Definition fresh (adapter : nat) : BroadcastOperator :=
  {| op_adapter := adapter; rooms := ∅; exceptRooms := ∅; flags := ∅ |}.

Definition to (self : BroadcastOperator) (room : RoomArg) :=
  new {| op_adapter := op_adapter self;
         rooms := rooms self ∪ room_labels room;
         exceptRooms := exceptRooms self; flags := flags self |}.

Definition in_ (self : BroadcastOperator) (room : RoomArg) :=
  new {| op_adapter := op_adapter self;
         rooms := rooms self ∪ room_labels room;
         exceptRooms := exceptRooms self; flags := flags self |}.

Definition except (self : BroadcastOperator) (room : RoomArg) :=
  new {| op_adapter := op_adapter self; rooms := rooms self;
         exceptRooms := exceptRooms self ∪ room_labels room;
         flags := flags self |}.

Definition set_flag (self : BroadcastOperator) (flag : string) (b : bool) :=
  new {| op_adapter := op_adapter self; rooms := rooms self;
         exceptRooms := exceptRooms self;
         flags := <[flag := b]> (flags self) |}.

Definition compress (self : BroadcastOperator) (b : bool) :=
  set_flag self "compress" b.

Definition volatile (self : BroadcastOperator) := set_flag self "volatile" true.

Definition local (self : BroadcastOperator) := set_flag self "local" true.

Definition emit (self : BroadcastOperator) (ev : string) (args : list JsVal)
    : World -> EmitResult * World := fun w =>
  if bool_decide (ev ∈ RESERVED_EVENTS) then
    (Thrown ("reserved event name: " +:+ ev), w)
  else
    let b := {| b_packet := {| packet_event := ev; packet_args := args |};
                b_rooms := rooms self; b_except := exceptRooms self;
                b_flags := flags self |} in
    (Returned true,
     with_adapters (fun ads a =>
       if decide (a = op_adapter self)
       then adapter_broadcast b (ads a) else ads a) w).

Definition allSockets (self : BroadcastOperator) : World -> gset string :=
  fun w => adapter_sockets (adapters w (op_adapter self))
             (rooms self) (exceptRooms self).

Definition derive (self : BroadcastOperator) (d : Derive) :=
  match d with
  | To room => to self room
  | In_ room => in_ self room
  | Except room => except self room
  | Compress b => compress self b
  | Volatile => volatile self
  | Local_ => local self
  end.

End Operator.

(** A method call on the operator at [l]; calling through a reference to
    nothing throws. *)
Definition call_operator {A} (l : nat)
    (method : BroadcastOperator -> World -> A * World)
    : World -> option (A * World) := fun w =>
  match operators w !! l with
  | Some self => Some (method self w)
  | None => None
  end.

(** [new BroadcastOperator(this.adapter).method(...)]: the receiver is the
    operator just built. *)
Definition on_fresh_operator {A}
    (method : BroadcastOperator -> World -> A * World) : World -> A * World :=
  fun w =>
    let self := Operator.fresh (adapter (nsp w)) in
    let '(_, w) := Operator.new self w in
    method self w.

(** [Namespace.to], [Namespace.in], [Namespace.except] *)
Definition to (room : RoomArg) : World -> nat * World :=
  on_fresh_operator (fun self => Operator.to self room).

Definition in_ (room : RoomArg) : World -> nat * World :=
  on_fresh_operator (fun self => Operator.in_ self room).

Definition except (room : RoomArg) : World -> nat * World :=
  on_fresh_operator (fun self => Operator.except self room).

(** [Namespace.emit] *)
Definition emit (ev : string) (args : list JsVal) : World -> EmitResult * World :=
  on_fresh_operator (fun self => Operator.emit self ev args).

(** [Namespace.allSockets] *)
Definition allSockets : World -> gset string * World :=
  on_fresh_operator (fun self w => (Operator.allSockets self w, w)).

(** [Namespace.compress], [Namespace.volatile], [Namespace.local] *)
Definition compress (b : bool) : World -> nat * World :=
  on_fresh_operator (fun self => Operator.compress self b).

Definition volatile : World -> nat * World :=
  on_fresh_operator Operator.volatile.

Definition local : World -> nat * World :=
  on_fresh_operator Operator.local.

(** A derivation started on the namespace, and one continued on an
    operator already at hand. *)
Definition derive (d : Derive) : World -> nat * World :=
  match d with
  | To room => to room
  | In_ room => in_ room
  | Except room => except room
  | Compress b => compress b
  | Volatile => volatile
  | Local_ => local
  end.

Fixpoint chain (l : nat) (ds : list Derive) (w : World) : option (nat * World) :=
  match ds with
  | [] => Some (l, w)
  | d :: ds' =>
      match call_operator l (fun self => Operator.derive self d) w with
      | Some (l', w') => chain l' ds' w'
      | None => None
      end
  end.

(** [nsp.d(..).d1(..). ... .dn(..)] *)
Definition build (d : Derive) (ds : list Derive) (w : World) : option (nat * World) :=
  let '(l, w') := derive d w in chain l ds w'.

(** The labels a sequence of derivations targets and excludes. *)
Definition target_labels (d : Derive) : gset string :=
  match d with
  | To room | In_ room => room_labels room
  | _ => ∅
  end.

Definition except_labels (d : Derive) : gset string :=
  match d with
  | Except room => room_labels room
  | _ => ∅
  end.

(** ** Vocabulary of the statements *)

(** Two worlds that differ at most in what was written to the debug log. *)
Definition same_but_debug (w w' : World) : Prop :=
  nsp w' = nsp w /\ conns w' = conns w /\ ticks w' = ticks w /\
  trace w' = trace w /\ operators w' = operators w /\ adapters w' = adapters w.

(** A world to run examples in: one namespace ["/"] with the middleware
    chain [fns], and every transport in state [st] speaking revision [p]. *)
Definition example_world (fns : list MwId) (st : string) (p : Z) : World :=
  {| nsp := {| name := "/"; sockets := ∅; adapter := 0; _fns := fns; _ids := 0 |};
     conns := fun _ => {| readyState := st; protocol := p |};
     ticks := []; trace := []; debug_log := [];
     operators := [];
     adapters := fun _ => {| sids := ∅; broadcasts := [] |} |}.

Definition example_socket (sid : string) : Socket :=
  {| socket_id := sid; socket_client := {| conn := 0 |};
     socket_query := JUndefined |}.

Definition example_task (sid : string) (err : option ExtendedError)
    (fn : option CbId) : Task :=
  {| t_socket := example_socket sid; t_client := {| conn := 0 |};
     t_err := err; t_fn := fn |}.

(** Kinds of middleware bodies.  A body proceeds when it calls its
    continuation exactly once and without an error; it signals an error
    when it calls it with an error and never without. *)
Definition is_next (a : MwAct) : bool :=
  match a with ActNext _ => true | _ => false end.

Definition is_proceed (a : MwAct) : bool :=
  match a with ActNext None => true | _ => false end.

Definition is_abort (a : MwAct) : bool :=
  match a with ActNext (Some _) => true | _ => false end.

Definition quiet (body : list MwAct) : bool :=
  forallb (fun a => negb (is_next a)) body.

Fixpoint proceeds (body : list MwAct) : bool :=
  match body with
  | [] => false
  | ActNext None :: post => quiet post
  | ActNext (Some _) :: _ => false
  | _ :: body' => proceeds body'
  end.

Definition signals_error (body : list MwAct) : bool :=
  existsb is_abort body && negb (existsb is_proceed body).

(** How a world may have moved on: [sockets] untouched and the trace
    longer by events in [P]; and, besides, the tick queue longer by tasks
    in [Q] and the chain longer by middleware in [U]. *)
Definition grows (P : Event -> Prop) (w w' : World) : Prop :=
  sockets (nsp w') = sockets (nsp w) /\
  exists evs, trace w' = trace w ++ evs /\ Forall P evs.

Definition extends (P : Event -> Prop) (Q : Task -> Prop) (U : MwId -> Prop)
    (w w' : World) : Prop :=
  grows P w w' /\
  (exists ts, ticks w' = ticks w ++ ts /\ Forall Q ts) /\
  (exists added, _fns (nsp w') = _fns (nsp w) ++ added /\ Forall U added).

(** Two worlds with the same [sockets], trace and tick queue. *)
Definition same_log (w w' : World) : Prop :=
  sockets (nsp w') = sockets (nsp w) /\ trace w' = trace w /\
  ticks w' = ticks w.

(** Kinds of events. *)
Definition is_socket_error (e : Event) : Prop :=
  exists s p, e = SocketError s p.

Definition is_call (e : Event) : Prop :=
  exists i g s, e = MiddlewareCall i g s.

Definition is_call_upto (k : nat) (e : Event) : Prop :=
  exists i g s, e = MiddlewareCall i g s /\ i <= k.

Definition is_call_of (fns : list MwId) (e : Event) : Prop :=
  exists i g s, e = MiddlewareCall i g s /\ fns !! i = Some g.

(** The continuation [run(i)] hands to [fns[i]], by name. *)
Definition next_of (code : MwId -> Socket -> list MwAct) (socket : Socket)
    (fn : option ExtendedError -> World -> World) (i : nat) (rest : list MwId)
    : option ExtendedError -> World -> World := fun err =>
  match err with
  | Some e => fn (Some e)
  | None =>
      match rest with
      | [] => fn None
      | g :: rest' => run_from code socket fn (i + 1) g rest'
      end
  end.

(** The continuation [_add] hands to [run]. *)
Definition completion (socket : Socket) (client : Client) (fn : option CbId)
    : option ExtendedError -> World -> World := fun err =>
  next_tick {| t_socket := socket; t_client := client;
               t_err := err; t_fn := fn |}.

(** A table of middleware bodies for the examples: 1 rejects with
    [auth failed], 2 registers middleware 3 and proceeds, every other one
    proceeds. *)
Definition example_code (f : MwId) (_ : Socket) : list MwAct :=
  match f with
  | 1 => [ActNext (Some {| message := "auth failed"; data := JUndefined |})]
  | 2 => [ActUse 3; ActNext None]
  | _ => [ActNext None]
  end.

(** The operator a derivation builds from its receiver. *)
Definition derived (self : BroadcastOperator) (d : Derive) : BroadcastOperator :=
  {| op_adapter := op_adapter self;
     rooms := rooms self ∪ target_labels d;
     exceptRooms := exceptRooms self ∪ except_labels d;
     flags := match d with
              | Compress b => <["compress" := b]> (flags self)
              | Volatile => <["volatile" := true]> (flags self)
              | Local_ => <["local" := true]> (flags self)
              | _ => flags self
              end |}.

(** [l] is an operator built on the way from [w] to [w'], bound to the
    adapter [a]: it did not exist in [w], and nothing that existed in [w]
    was touched. *)
Definition fresh_operator (a : nat) (w : World) (l : nat) (w' : World) : Prop :=
  operators w !! l = None /\
  (exists b, operators w' !! l = Some b /\ op_adapter b = a) /\
  nsp w' = nsp w /\ adapters w' = adapters w /\
  conns w' = conns w /\ ticks w' = ticks w /\ trace w' = trace w /\
  (forall l0 b0, operators w !! l0 = Some b0 -> operators w' !! l0 = Some b0).

(** The rooms a sequence of derivations has accumulated. *)
Definition intent_rooms (ds : list Derive) : gset string :=
  ⋃ (target_labels <$> ds).

Definition intent_except (ds : list Derive) : gset string :=
  ⋃ (except_labels <$> ds).

(** Matching in the spec's words: an endpoint of the namespace that is a
    member of some room of [rs], or any endpoint when [rs] is empty, and
    is a member of no room of [ex].  Compared with [adapter_sockets]. *)
Definition matches (a : AdapterState) (rs ex : gset string) (sid : string) : Prop :=
  is_Some (sids a !! sid) /\
  (rs = ∅ \/ exists r, r ∈ rs /\ r ∈ rooms_of a sid) /\
  (forall r, r ∈ ex -> r ∉ rooms_of a sid).

(** ** Vocabulary of the further properties *)

(** The error a body rejects with: it calls its continuation exactly
    once, and with that error. *)
Fixpoint rejects (body : list MwAct) : option ExtendedError :=
  match body with
  | [] => None
  | ActNext (Some e) :: post => if quiet post then Some e else None
  | ActNext None :: _ => None
  | _ :: body' => rejects body'
  end.

(** How many times a body calls its continuation. *)
Fixpoint next_calls (body : list MwAct) : nat :=
  match body with
  | [] => 0
  | a :: body' => (if is_next a then 1 else 0) + next_calls body'
  end.

(** The payload the deferred function hands to [socket._error] for the
    error [err] on the transport [c]. *)
Definition error_payload (c : Conn) (err : ExtendedError) : JsVal :=
  if (protocol c =? 3)%Z
  then js_or (data err) (JStr (message err))
  else JObj [("message", JStr (message err)); ("data", data err)].

(** The calls of the middleware [fns], in order, the first at position
    [i]. *)
Definition calls_from (sid : string) (i : nat) (fns : list MwId) : list Event :=
  imap (fun j g => MiddlewareCall (i + j) g sid) fns.

(** What the deferred function does on success. *)
Definition success_events (sid : string) (fn : option CbId) : list Event :=
  [SocketsSet sid; SocketOnconnect sid] ++
  (match fn with Some cb => [CallbackCall cb] | None => [] end) ++
  [SuperEmit "connect" sid; SuperEmit "connection" sid].

(** [nsp.use(f1).use(f2)...]: [use] returns the namespace. *)
Definition use_all (fs : list MwId) : World -> World := fun w =>
  fold_left (fun w f => use f w) fs w.

(** What the chain may change: [_fns], the transports, the trace, the
    tick queue and the debug log, and nothing else. *)
Definition chain_only (w w' : World) : Prop :=
  name (nsp w') = name (nsp w) /\ sockets (nsp w') = sockets (nsp w) /\
  adapter (nsp w') = adapter (nsp w) /\ _ids (nsp w') = _ids (nsp w) /\
  operators w' = operators w /\ adapters w' = adapters w.

(** What the admission of the session [sid] may change besides: the
    entry of [sid] in [sockets]. *)
Definition others_kept (sid : string) (w w' : World) : Prop :=
  name (nsp w') = name (nsp w) /\
  adapter (nsp w') = adapter (nsp w) /\ _ids (nsp w') = _ids (nsp w) /\
  operators w' = operators w /\ adapters w' = adapters w /\
  forall id, id <> sid -> sockets (nsp w') !! id = sockets (nsp w) !! id.

(** * Properties *)

Lemma debug_same msg w : same_but_debug w (debug msg w).
Proof. by repeat split. Qed.

(** ** The deferred half of [_add] *)

Section Admit.

Variables (t : Task) (w : World).

Lemma deferred_closed :
  readyState (conns w (conn (t_client t))) ≠ "open" ->
  deferred t w = debug "next called after client was closed - ignoring socket" w.
Proof.
  intros Hst. unfold deferred.
  destruct (String.eqb_spec "open" (readyState (conns w (conn (t_client t)))))
    as [E|E]; [congruence|done].
Qed.

Lemma deferred_error err :
  readyState (conns w (conn (t_client t))) = "open" -> t_err t = Some err ->
  deferred t w =
    socket_error (t_socket t)
      (if (protocol (conns w (conn (t_client t))) =? 3)%Z
       then js_or (data err) (JStr (message err))
       else JObj [("message", JStr (message err)); ("data", data err)]) w.
Proof.
  intros Hst He. unfold deferred. rewrite Hst, He. simpl.
  by destruct (protocol _ =? 3)%Z.
Qed.

Lemma deferred_success :
  readyState (conns w (conn (t_client t))) = "open" -> t_err t = None ->
  deferred t w =
    super_emit "connection" (t_socket t)
      (super_emit "connect" (t_socket t)
        (call_fn (t_fn t)
          (socket_onconnect (t_socket t)
            (sockets_set (t_socket t) w)))).
Proof. intros Hst He. unfold deferred. by rewrite Hst, He. Qed.

End Admit.




(** What a deferred completion with no error and an open transport does,
    in order. *)
Lemma deferred_success_effects (t : Task) (w : World) :
  readyState (conns w (conn (t_client t))) = "open" ->
  t_err t = None ->
  let s := t_socket t in
  trace (deferred t w) =
    trace w ++
      [SocketsSet (socket_id s); SocketOnconnect (socket_id s)] ++
      (match t_fn t with Some cb => [CallbackCall cb] | None => [] end) ++
      [SuperEmit "connect" (socket_id s); SuperEmit "connection" (socket_id s)] /\
  sockets (nsp (deferred t w)) = <[socket_id s := s]> (sockets (nsp w)).
Proof.
  intros Hst He s. rewrite (deferred_success t w Hst He). fold s.
  destruct (t_fn t) as [cb|]; simpl; rewrite <- ?app_assoc; repeat split.
Qed.

(** ** Removal *)

Lemma _remove_absent (socket : Socket) (w : World) :
  sockets (nsp w) !! socket_id socket = None ->
  _remove socket w = debug ("ignoring remove for " +:+ socket_id socket) w.
Proof.
  intros Hn. unfold _remove. rewrite Hn.
  destruct (decide (is_Some None)) as [[? ?]|]; [discriminate|done].
Qed.

Lemma _remove_gone (socket : Socket) (w : World) :
  sockets (nsp (_remove socket w)) !! socket_id socket = None.
Proof.
  unfold _remove.
  destruct (decide (is_Some (sockets (nsp w) !! socket_id socket))) as [|Hn]; simpl.
  - apply lookup_delete_eq.
  - by apply eq_None_not_Some.
Qed.

(** C7: [_remove] for an identifier that is not in [sockets] changes
    nothing but the debug log, and so does a second [_remove] after a
    first: the second call leaves the state the first one produced. *)
Theorem _remove_idempotent (socket : Socket) (w : World) :
  (sockets (nsp w) !! socket_id socket = None ->
     same_but_debug w (_remove socket w) /\
     sockets (nsp (_remove socket w)) = sockets (nsp w)) /\
  same_but_debug (_remove socket w) (_remove socket (_remove socket w)) /\
  sockets (nsp (_remove socket (_remove socket w))) =
    sockets (nsp (_remove socket w)).
Proof.
  split.
  - intros Hn. rewrite (_remove_absent socket w Hn).
    split; [apply debug_same|done].
  - rewrite (_remove_absent socket (_remove socket w) (_remove_gone socket w)).
    split; [apply debug_same|done].
Qed.

(** ** The middleware chain *)

Section Moves.

Variables (P : Event -> Prop) (Q : Task -> Prop) (U : MwId -> Prop).

Lemma grows_same w w' :
  sockets (nsp w') = sockets (nsp w) -> trace w' = trace w -> grows P w w'.
Proof. intros Hs Ht. split; [done|]. exists []. by rewrite app_nil_r. Qed.

Lemma grows_refl w : grows P w w.
Proof. by apply grows_same. Qed.

Lemma grows_trans w1 w2 w3 : grows P w1 w2 -> grows P w2 w3 -> grows P w1 w3.
Proof.
  intros [Hs1 (e1 & Ht1 & Hp1)] [Hs2 (e2 & Ht2 & Hp2)]. split; [congruence|].
  exists (e1 ++ e2). rewrite Ht2, Ht1, app_assoc. split; [done|].
  by apply Forall_app.
Qed.

Lemma extends_refl w : extends P Q U w w.
Proof.
  split; [apply grows_refl|]. split; exists []; by rewrite app_nil_r.
Qed.

Lemma extends_trans w1 w2 w3 :
  extends P Q U w1 w2 -> extends P Q U w2 w3 -> extends P Q U w1 w3.
Proof.
  intros (Hg1 & (t1 & Hq1 & HQ1) & (a1 & Hf1 & HU1))
         (Hg2 & (t2 & Hq2 & HQ2) & (a2 & Hf2 & HU2)).
  split; [by eapply grows_trans|]. split.
  - exists (t1 ++ t2). rewrite Hq2, Hq1, app_assoc. split; [done|].
    by apply Forall_app.
  - exists (a1 ++ a2). rewrite Hf2, Hf1, app_assoc. split; [done|].
    by apply Forall_app.
Qed.

Lemma extends_event e w : P e -> extends P Q U w (emit_event e w).
Proof.
  intros He. split; [|split; exists []; by rewrite app_nil_r].
  split; [done|]. exists [e]. split; [done|]. by apply Forall_singleton.
Qed.

Lemma extends_next_tick t w : Q t -> extends P Q U w (next_tick t w).
Proof.
  intros Ht. split; [by apply grows_same|]. split.
  - exists [t]. split; [done|]. by apply Forall_singleton.
  - exists []. by rewrite app_nil_r.
Qed.

Lemma extends_use g w : U g -> extends P Q U w (use g w).
Proof.
  intros Hg. split; [by apply grows_same|]. split.
  - exists []. by rewrite app_nil_r.
  - exists [g]. split; [done|]. by apply Forall_singleton.
Qed.

Lemma extends_set_ready_state c st w : extends P Q U w (set_ready_state c st w).
Proof.
  split; [by apply grows_same|]. split; exists []; by rewrite app_nil_r.
Qed.

(** A body moves the world within [extends] when each of its actions
    does. *)
Lemma exec_body_extends next body :
  (forall a, a ∈ body -> forall w, extends P Q U w (exec_act next a w)) ->
  forall w, extends P Q U w (exec_body next body w).
Proof.
  unfold exec_body. induction body as [|a body IH]; intros Hstep w; simpl.
  - apply extends_refl.
  - eapply extends_trans.
    + apply Hstep. apply list_elem_of_here.
    + apply IH. intros b Hb. apply Hstep. by apply list_elem_of_further.
Qed.

Variable code : MwId -> Socket -> list MwAct.
Variables (socket : Socket) (fn : option ExtendedError -> World -> World).

(** The chain from position [i] on: a middleware is called only when all
    those before it were willing to proceed, the completion sees no error
    only when all of them were. *)
Lemma run_from_extends rest : forall i f w,
  (forall j g, (f :: rest) !! j = Some g ->
     (forall j' g', j' < j -> (f :: rest) !! j' = Some g' ->
        ActNext None ∈ code g' socket) ->
     P (MiddlewareCall (i + j) g (socket_id socket)) /\
     forall h, ActUse h ∈ code g socket -> U h) ->
  (forall e w, extends P Q U w (fn (Some e) w)) ->
  ((forall g, g ∈ f :: rest -> ActNext None ∈ code g socket) ->
     forall w, extends P Q U w (fn None w)) ->
  extends P Q U w (run_from code socket fn i f rest w).
Proof.
  induction rest as [|g rest IH]; intros i f w Hcall Hsome Hnone;
    simpl; unfold call_middleware.
  - eapply extends_trans.
    { apply extends_event. destruct (Hcall 0 f eq_refl) as [Hp _]; [lia|].
      by rewrite Nat.add_0_r in Hp. }
    apply exec_body_extends. intros a Ha w'.
    destruct a as [[e|]|h|c st]; simpl.
    + apply Hsome.
    + apply Hnone. intros g Hg. apply list_elem_of_singleton in Hg. by subst.
    + apply extends_use. destruct (Hcall 0 f eq_refl) as [_ Hu]; [lia|].
      by apply Hu.
    + apply extends_set_ready_state.
  - eapply extends_trans.
    { apply extends_event. destruct (Hcall 0 f eq_refl) as [Hp _]; [lia|].
      by rewrite Nat.add_0_r in Hp. }
    apply exec_body_extends. intros a Ha w'.
    destruct a as [[e|]|h|c st]; simpl.
    + apply Hsome.
    + apply IH.
      * intros j g' Hj Hbefore.
        replace (i + 1 + j) with (i + S j) by lia.
        apply (Hcall (S j) g' Hj).
        intros [|j'] g'' Hlt Hj'; simpl in Hj'.
        -- by inversion Hj'; subst.
        -- apply (Hbefore j' g''); [lia|done].
      * apply Hsome.
      * intros Hall. apply Hnone. intros g' Hg'.
        apply elem_of_cons in Hg' as [->|Hg']; [done|by apply Hall].
    + apply extends_use. destruct (Hcall 0 f eq_refl) as [_ Hu]; [lia|].
      by apply Hu.
    + apply extends_set_ready_state.
Qed.

End Moves.

Lemma signals_error_never_proceeds body :
  signals_error body = true -> ActNext None ∉ body.
Proof.
  unfold signals_error. intros [_ Hn]%andb_true_iff Hin.
  apply negb_true_iff in Hn.
  assert (existsb is_proceed body = true) as He; [|congruence].
  apply existsb_exists. exists (ActNext None).
  split; [by apply list_elem_of_In|done].
Qed.

Lemma proceeds_calls_next body : proceeds body = true -> ActNext None ∈ body.
Proof.
  induction body as [|[[e|]|h|c st] body IH]; simpl; intros Hp;
    try discriminate;
    first [apply list_elem_of_here | apply list_elem_of_further, IH, Hp].
Qed.

Lemma grows_mono (P P' : Event -> Prop) w w' :
  (forall e, P e -> P' e) -> grows P w w' -> grows P' w w'.
Proof.
  intros Himp [Hs (evs & Ht & Hp)]. split; [done|]. exists evs.
  split; [done|]. eapply Forall_impl; eauto.
Qed.

Lemma _add_unfold code sid client query fn w :
  let socket := {| socket_id := sid; socket_client := client;
                   socket_query := query |} in
  _add code sid client query fn w =
    (socket,
     run code socket (completion socket client fn)
       (debug ("adding socket to nsp " +:+ name (nsp w)) w)).
Proof. reflexivity. Qed.

(** ** Emptying the tick queue *)

Lemma deferred_rejected_grows t w :
  is_Some (t_err t) -> grows is_socket_error w (deferred t w).
Proof.
  intros [err He].
  destruct (decide (readyState (conns w (conn (t_client t))) = "open")) as [Hst|Hst].
  - rewrite (deferred_error t w err Hst He). split; [done|].
    eexists [_]. split; [done|]. apply Forall_singleton. by eexists _, _.
  - rewrite (deferred_closed t w Hst). by apply grows_same.
Qed.

Lemma deferred_all_rejected_grows ts : forall w,
  Forall (fun t => is_Some (t_err t)) ts ->
  grows is_socket_error w (fold_left (fun w t => deferred t w) ts w).
Proof.
  induction ts as [|t ts IH]; intros w Hts; simpl.
  - apply grows_refl.
  - apply Forall_cons in Hts as [Ht Hts].
    eapply grows_trans; [by apply deferred_rejected_grows|by apply IH].
Qed.

(** ** Short-circuit on error *)

Lemma run_rejecting_extends code socket client fn k f w :
  _fns (nsp w) !! k = Some f ->
  signals_error (code f socket) = true ->
  extends (is_call_upto k) (fun t => is_Some (t_err t)) (fun _ => True)
    w (run code socket (completion socket client fn) w).
Proof.
  intros Hk Herr. pose proof (signals_error_never_proceeds _ Herr) as Hnever.
  unfold run. destruct (_fns (nsp w)) as [|f0 rest] eqn:Hfns; [done|].
  apply run_from_extends.
  - intros j g Hj Hbefore. split; [|done].
    exists j, g, (socket_id socket). split; [done|].
    destruct (decide (j ≤ k)) as [|Hgt]; [done|]. exfalso.
    apply Hnever, (Hbefore k f); [lia|done].
  - intros e w'. by apply extends_next_tick.
  - intros Hall. exfalso. apply Hnever, Hall.
    by eapply list_elem_of_lookup_2.
Qed.

(** C1 as amended: when the middleware at index [k] of the chain calls
    its continuation with an error and never without one, an admission
    calls no middleware at an index above [k], never writes to [sockets],
    and leaves [sockets] as it was, also after the deferred completions
    have run. *)
Theorem middleware_error_short_circuits
    (code : MwId -> Socket -> list MwAct) (w : World)
    (sid : string) (client : Client) (query : JsVal) (fn : option CbId)
    (k : nat) (f : MwId) :
  ticks w = [] ->
  _fns (nsp w) !! k = Some f ->
  signals_error
    (code f {| socket_id := sid; socket_client := client;
               socket_query := query |}) = true ->
  let w' := run_ticks (snd (_add code sid client query fn w)) in
  exists evs,
    trace w' = trace w ++ evs /\
    (forall i g s, MiddlewareCall i g s ∈ evs -> i <= k) /\
    (forall s, SocketsSet s ∉ evs) /\
    sockets (nsp w') = sockets (nsp w).
Proof.
  intros Hq Hk Herr w'. subst w'. rewrite _add_unfold. simpl snd.
  set (socket := {| socket_id := sid |}) in *.
  set (w0 := debug _ w).
  destruct (run_rejecting_extends code socket client fn k f w0 Hk Herr)
    as ([Hs1 (e1 & Ht1 & Hp1)] & (ts & Hts & HQ) & _).
  set (w1 := run _ _ _ w0) in *.
  unfold run_ticks. simpl in Hts. rewrite Hq in Hts. simpl in Hts.
  rewrite Hts.
  destruct (deferred_all_rejected_grows ts (with_ticks (fun _ => []) w1) HQ)
    as [Hs2 (e2 & Ht2 & Hp2)].
  exists (e1 ++ e2). split; [|split; [|split]].
  - rewrite Ht2. simpl. rewrite Ht1. simpl. by rewrite app_assoc.
  - intros i g s [Hin|Hin]%elem_of_app.
    + eapply Forall_forall in Hp1 as (i' & g' & s' & Heq & Hle); [|done].
      by inversion Heq; subst.
    + eapply Forall_forall in Hp2 as (s' & p & Heq); [|done]. discriminate.
  - intros s [Hin|Hin]%elem_of_app.
    + eapply Forall_forall in Hp1 as (i' & g' & s' & Heq & Hle); [|done].
      discriminate.
    + eapply Forall_forall in Hp2 as (s' & p & Heq); [|done]. discriminate.
  - rewrite Hs2. simpl. by rewrite Hs1.
Qed.

Example middleware_error_short_circuits_run :
  let w' := run_ticks (snd (_add example_code "s1" {| conn := 0 |} JUndefined None
                              (example_world [0; 1; 2] "open" 4))) in
  trace w' =
    [MiddlewareCall 0 0 "s1"; MiddlewareCall 1 1 "s1";
     SocketError "s1" (JObj [("message", JStr "auth failed"); ("data", JUndefined)])] /\
  sockets (nsp w') = ∅.
Proof. cbv zeta. split; reflexivity. Qed.

Lemma middleware_error_short_circuits_witness :
  let w' := run_ticks (snd (_add example_code "s1" {| conn := 0 |} JUndefined None
                              (example_world [0; 1; 2] "open" 4))) in
  exists evs,
    trace w' = [] ++ evs /\
    (forall i g s, MiddlewareCall i g s ∈ evs -> i <= 1) /\
    (forall s, SocketsSet s ∉ evs) /\
    sockets (nsp w') = ∅.
Proof.
  cbv zeta.
  apply (middleware_error_short_circuits example_code
           (example_world [0; 1; 2] "open" 4) "s1" {| conn := 0 |} JUndefined
           None 1 1); reflexivity.
Defined.

(** C1 as stated fails for a middleware that calls its continuation with
    an error and then once more without one: [run] keeps no record of the
    first call, so the second one reaches [run(i + 1)]; the middleware at
    index 1 is called and its completion registers the session, after the
    error payload of the first completion was sent. *)
Lemma middleware_error_then_proceed_registers :
  let code := fun (f : MwId) (_ : Socket) =>
    match f with
    | 0 => [ActNext (Some {| message := "auth failed"; data := JUndefined |});
            ActNext None]
    | _ => [ActNext None]
    end in
  let w' := run_ticks (snd (_add code "s1" {| conn := 0 |} JUndefined None
                              (example_world [0; 1] "open" 4))) in
  existsb is_abort (code 0 (example_socket "s1")) = true /\
  trace w' =
    [MiddlewareCall 0 0 "s1"; MiddlewareCall 1 1 "s1";
     SocketError "s1" (JObj [("message", JStr "auth failed"); ("data", JUndefined)]);
     SocketsSet "s1"; SocketOnconnect "s1";
     SuperEmit "connect" "s1"; SuperEmit "connection" "s1"] /\
  MiddlewareCall 1 1 "s1" ∈ trace w' /\
  sockets (nsp w') !! "s1" = Some (example_socket "s1").
Proof.
  cbv zeta. split; [reflexivity|]. split; [reflexivity|]. split.
  - apply list_elem_of_further, list_elem_of_here.
  - reflexivity.
Qed.

(** ** The chain is the snapshot taken when the pipeline starts *)

Lemma same_log_trans w1 w2 w3 : same_log w1 w2 -> same_log w2 w3 -> same_log w1 w3.
Proof. intros (?&?&?) (?&?&?). repeat split; congruence. Qed.

Lemma exec_body_quiet next body : forall w,
  quiet body = true -> same_log w (exec_body next body w).
Proof.
  unfold exec_body.
  induction body as [|a body IH]; intros w Hq; simpl in *; [done|].
  apply andb_true_iff in Hq as [Ha Hq].
  eapply same_log_trans; [|by apply IH].
  by destruct a.
Qed.

(** A body that proceeds leaves the log alone up to its one call of the
    continuation, and after it. *)
Lemma exec_body_proceeds next body : forall w,
  proceeds body = true ->
  exists w1, same_log w w1 /\ same_log (next None w1) (exec_body next body w).
Proof.
  induction body as [|a body IH]; intros w Hp; simpl in Hp; [done|].
  destruct a as [[e|]|h|c st]; try done.
  - exists w. split; [done|]. by apply (exec_body_quiet next body).
  - destruct (IH (use h w) Hp) as (w1 & H1 & H2). exists w1.
    split; [|done]. eapply same_log_trans; [|done]. done.
  - destruct (IH (set_ready_state c st w) Hp) as (w1 & H1 & H2). exists w1.
    split; [|done]. eapply same_log_trans; [|done]. done.
Qed.

Lemma run_from_proceeds code socket client fn rest : forall i f w,
  (forall g, g ∈ f :: rest -> proceeds (code g socket) = true) ->
  let w' := run_from code socket (completion socket client fn) i f rest w in
  sockets (nsp w') = sockets (nsp w) /\
  trace w' =
    trace w ++
    imap (fun j g => MiddlewareCall (i + j) g (socket_id socket)) (f :: rest) /\
  ticks w' =
    ticks w ++ [{| t_socket := socket; t_client := client;
                   t_err := None; t_fn := fn |}].
Proof.
  induction rest as [|g rest IH]; intros i f w Hall; simpl;
    unfold call_middleware;
    match goal with |- context [exec_body ?n ?b ?w0] =>
      destruct (exec_body_proceeds n b w0) as (w1 & (Hs1 & Ht1 & Hq1) & (Hs2 & Ht2 & Hq2));
        [apply Hall, list_elem_of_here|]
    end; simpl in *.
  - rewrite Hs2, Ht2, Hq2, Hs1, Ht1, Hq1, Nat.add_0_r. done.
  - destruct (IH (i + 1) g w1) as (Hs3 & Ht3 & Hq3).
    { intros g' Hg'. apply Hall. by apply list_elem_of_further. }
    simpl in *. rewrite Hs2, Ht2, Hq2, Hs3, Ht3, Hq3, Hs1, Ht1, Hq1, Nat.add_0_r.
    split; [done|]. split; [|done].
    rewrite <- app_assoc. simpl. do 3 f_equal.
    + f_equal. lia.
    + apply imap_ext. intros j x _. simpl. f_equal. lia.
Qed.

Lemma run_from_unfold code socket fn i f rest :
  run_from code socket fn i f rest =
    call_middleware code i f socket (next_of code socket fn i rest).
Proof. by destruct rest. Qed.

Section Registered.

Variable code : MwId -> Socket -> list MwAct.
Variables (socket : Socket) (client : Client) (fn : option CbId).

Local Abbreviation anything :=
  (extends (fun _ => True) (fun _ => True) (fun _ => True)).

Lemma run_from_anything rest i f w :
  anything w (run_from code socket (completion socket client fn) i f rest w).
Proof.
  apply run_from_extends; [done| |]; intros; by apply extends_next_tick.
Qed.

Lemma next_of_anything rest i err w :
  anything w (next_of code socket (completion socket client fn) i rest err w).
Proof.
  destruct err as [e|]; simpl; [by apply extends_next_tick|].
  destruct rest; [by apply extends_next_tick|apply run_from_anything].
Qed.

Lemma anything_keeps u w w' :
  anything w w' -> u ∈ _fns (nsp w) -> u ∈ _fns (nsp w').
Proof.
  intros (_ & _ & (added & Hf & _)) Hu. rewrite Hf. apply elem_of_app. by left.
Qed.

Lemma exec_act_keeps rest i u a w :
  u ∈ _fns (nsp w) ->
  u ∈ _fns (nsp (exec_act (next_of code socket (completion socket client fn) i rest) a w)).
Proof.
  intros Hu. destruct a as [err|h|c st]; simpl.
  - by eapply anything_keeps; [apply next_of_anything|].
  - apply elem_of_app. by left.
  - done.
Qed.

Lemma exec_body_keeps rest i u body : forall w,
  u ∈ _fns (nsp w) ->
  u ∈ _fns (nsp (exec_body (next_of code socket (completion socket client fn) i rest) body w)).
Proof.
  unfold exec_body. induction body as [|a body IH]; intros w Hu; simpl; [done|].
  by apply IH, exec_act_keeps.
Qed.

(** Once some action of a body has put [u] on the chain, it is there
    when the body is over. *)
Lemma exec_body_reaches rest i u a0 body : forall w,
  a0 ∈ body ->
  (forall w, u ∈ _fns (nsp (exec_act (next_of code socket (completion socket client fn) i rest) a0 w))) ->
  u ∈ _fns (nsp (exec_body (next_of code socket (completion socket client fn) i rest) body w)).
Proof.
  induction body as [|a body IH]; intros w Hin Hset.
  - by apply elem_of_nil in Hin.
  - apply elem_of_cons in Hin as [->|Hin].
    + apply (exec_body_keeps rest i u body), Hset.
    + by apply (IH (exec_act _ a w)).
Qed.

Lemma run_from_registers rest : forall i f w h u,
  (forall g, g ∈ f :: rest -> proceeds (code g socket) = true) ->
  h ∈ f :: rest -> ActUse u ∈ code h socket ->
  u ∈ _fns (nsp (run_from code socket (completion socket client fn) i f rest w)).
Proof.
  induction rest as [|g rest IH]; intros i f w h u Hall Hh Hu;
    rewrite run_from_unfold; unfold call_middleware;
    apply elem_of_cons in Hh as [->|Hh].
  - eapply exec_body_reaches; [done|]. intros w'. simpl.
    apply elem_of_app. right. apply list_elem_of_here.
  - by apply elem_of_nil in Hh.
  - eapply exec_body_reaches; [done|]. intros w'. simpl.
    apply elem_of_app. right. apply list_elem_of_here.
  - eapply exec_body_reaches.
    + apply proceeds_calls_next, Hall, list_elem_of_here.
    + intros w'. simpl. apply (IH (i + 1) g w' h u); [|done|done].
      intros g' Hg'. by apply Hall, list_elem_of_further.
Qed.

End Registered.

Lemma run_snapshot_extends code socket client fn w :
  extends (is_call_of (_fns (nsp w))) (fun _ => True)
    (fun u => exists h, h ∈ _fns (nsp w) /\ ActUse u ∈ code h socket)
    w (run code socket (completion socket client fn) w).
Proof.
  unfold run. destruct (_fns (nsp w)) as [|f rest] eqn:Hfns.
  - by apply extends_next_tick.
  - apply run_from_extends.
    + intros j g Hj _. split.
      * by exists j, g, (socket_id socket).
      * intros u Hu. exists g. split; [by eapply list_elem_of_lookup_2|done].
    + intros. by apply extends_next_tick.
    + intros. by apply extends_next_tick.
Qed.

(** C10: the middleware an admission calls are entries of the chain as it
    stood when the pipeline started, each at its own position; what
    [use] adds meanwhile goes to the end of the chain and is not called.
    When every entry proceeds, the calls are exactly the entries of that
    snapshot, in order, and everything they registered is on the chain
    afterwards. *)
Theorem run_calls_chain_snapshot
    (code : MwId -> Socket -> list MwAct) (w : World)
    (sid : string) (client : Client) (query : JsVal) (fn : option CbId) :
  let socket := {| socket_id := sid; socket_client := client;
                   socket_query := query |} in
  let fns0 := _fns (nsp w) in
  let w' := snd (_add code sid client query fn w) in
  (exists evs added,
     trace w' = trace w ++ evs /\
     _fns (nsp w') = fns0 ++ added /\
     (forall i g s, MiddlewareCall i g s ∈ evs -> fns0 !! i = Some g) /\
     (forall u, u ∈ added -> exists h, h ∈ fns0 /\ ActUse u ∈ code h socket)) /\
  ((forall g, g ∈ fns0 -> proceeds (code g socket) = true) ->
     trace w' = trace w ++ imap (fun i g => MiddlewareCall i g sid) fns0 /\
     forall h u, h ∈ fns0 -> ActUse u ∈ code h socket -> u ∈ _fns (nsp w')).
Proof.
  intros socket fns0 w'. subst w'. rewrite _add_unfold. simpl snd.
  fold socket. set (w0 := debug _ w).
  change fns0 with (_fns (nsp w0)). change (trace w) with (trace w0).
  split.
  - destruct (run_snapshot_extends code socket client fn w0)
      as ([_ (evs & Ht & Hp)] & _ & (added & Hf & Hu)).
    exists evs, added. repeat split; [done|done| |].
    + intros i g s Hin.
      eapply Forall_forall in Hp as (i' & g' & s' & Heq & Hl); [|done].
      by inversion Heq; subst.
    + intros u Hin. by eapply Forall_forall in Hu.
  - intros Hall. unfold run.
    destruct (_fns (nsp w0)) as [|f rest] eqn:Hfns.
    + split; [by rewrite app_nil_r|]. intros h u Hh. by apply elem_of_nil in Hh.
    + split.
      * by destruct (run_from_proceeds code socket client fn rest 0 f w0 Hall)
          as (_ & -> & _).
      * intros h u Hh Hu. by eapply run_from_registers.
Qed.

Example run_calls_chain_snapshot_run :
  let w' := snd (_add example_code "s1" {| conn := 0 |} JUndefined None
                   (example_world [0; 2; 4] "open" 4)) in
  trace w' = [MiddlewareCall 0 0 "s1"; MiddlewareCall 1 2 "s1"; MiddlewareCall 2 4 "s1"] /\
  _fns (nsp w') = [0; 2; 4; 3].
Proof. cbv zeta. split; reflexivity. Qed.

(** ** A successful admission, from [_add] to the notifications *)

Lemma run_proceeds_log code socket client fn w :
  (forall g, g ∈ _fns (nsp w) -> proceeds (code g socket) = true) ->
  let w' := run code socket (completion socket client fn) w in
  sockets (nsp w') = sockets (nsp w) /\
  trace w' =
    trace w ++ imap (fun i g => MiddlewareCall i g (socket_id socket)) (_fns (nsp w)) /\
  ticks w' =
    ticks w ++ [{| t_socket := socket; t_client := client;
                   t_err := None; t_fn := fn |}].
Proof.
  intros Hall. unfold run. destruct (_fns (nsp w)) as [|f rest] eqn:Hfns.
  - simpl. by rewrite app_nil_r.
  - apply (run_from_proceeds code socket client fn rest 0 f w Hall).
Qed.



(** ** Broadcast operators *)

Lemma derive_new self d : Operator.derive self d = Operator.new (derived self d).
Proof.
  destruct self as [a rs ex fl]. destruct d; simpl;
    unfold Operator.to, Operator.in_, Operator.except, Operator.compress,
      Operator.volatile, Operator.local, Operator.set_flag, derived; simpl;
    by rewrite ?union_empty_r_L.
Qed.

Lemma new_fresh b w :
  fresh_operator (op_adapter b) w (fst (Operator.new b w)) (snd (Operator.new b w)).
Proof.
  unfold fresh_operator, Operator.new; simpl. split; [|split].
  - by apply lookup_ge_None.
  - exists b. split; [|done]. by apply list_lookup_middle.
  - repeat split. intros l0 b0 H0. by apply lookup_app_l_Some.
Qed.

Lemma fresh_operator_after a a' w l0 w0 l w' :
  fresh_operator a' w l0 w0 -> fresh_operator a w0 l w' -> fresh_operator a w l w'.
Proof.
  intros (Hn0 & _ & Hnsp0 & Had0 & Hc0 & Ht0 & Htr0 & Hk0)
         (Hn & Hb & Hnsp & Had & Hc & Ht & Htr & Hk).
  split; [|split; [done|]].
  - destruct (operators w !! l) as [b|] eqn:Hl; [|done].
    apply Hk0 in Hl. congruence.
  - repeat split; try congruence. intros l1 b1 H1. by apply Hk, Hk0.
Qed.

Lemma on_fresh_derive d w :
  derive d w =
    Operator.derive (Operator.fresh (adapter (nsp w))) d
      (snd (Operator.new (Operator.fresh (adapter (nsp w))) w)).
Proof. by destruct d. Qed.

(** C8: [to], [in], [except], [compress], [volatile] and [local] on the
    namespace return an operator that did not exist before, bound to the
    namespace's adapter, and change neither the namespace, nor its
    adapter, nor any operator that existed; the same call on an operator
    returns a new operator on the receiver's adapter and leaves the
    receiver, and every other operator, as it was. *)
Theorem derive_returns_fresh_operator (d : Derive) (w : World) :
  fresh_operator (adapter (nsp w)) w (fst (derive d w)) (snd (derive d w)) /\
  forall l0 self, operators w !! l0 = Some self ->
    exists l w',
      call_operator l0 (fun self => Operator.derive self d) w = Some (l, w') /\
      fresh_operator (op_adapter self) w l w' /\
      operators w' !! l0 = Some self /\
      operators w' !! l = Some (derived self d).
Proof.
  split.
  - rewrite on_fresh_derive, derive_new.
    eapply fresh_operator_after; [apply new_fresh|].
    apply (new_fresh (derived (Operator.fresh (adapter (nsp w))) d)).
  - intros l0 self H0. unfold call_operator. rewrite H0, derive_new.
    eexists _, _. split; [done|].
    pose proof (new_fresh (derived self d) w) as Hf.
    split; [done|]. split.
    + by apply Hf.
    + simpl. by apply list_lookup_middle.
Qed.

(** ** Targeting *)

Lemma rooms_disjoint (ex X : gset string) :
  ex ∩ X = ∅ <-> forall r, r ∈ ex -> r ∉ X.
Proof.
  rewrite elem_of_equiv_empty_L. split.
  - intros H r Hr Hx. apply (H r). by apply elem_of_intersection.
  - intros H r [Hr Hx]%elem_of_intersection. by apply (H r).
Qed.

Lemma rooms_meet (rs X : gset string) :
  rs ∩ X ≠ ∅ <-> exists r, r ∈ rs /\ r ∈ X.
Proof.
  split.
  - intros [r Hr]%set_choose_L. exists r. by apply elem_of_intersection.
  - intros (r & Hr) Hempty. apply elem_of_intersection in Hr.
    rewrite Hempty in Hr. by apply elem_of_empty in Hr.
Qed.

Lemma adapter_sockets_matches a rs ex sid :
  sid ∈ adapter_sockets a rs ex <-> matches a rs ex sid.
Proof.
  unfold adapter_sockets, matches, targeted.
  rewrite elem_of_filter, elem_of_dom, andb_true_iff, orb_true_iff,
    !bool_decide_eq_true, rooms_meet, rooms_disjoint.
  tauto.
Qed.

Lemma derived_fold ds : forall b,
  op_adapter (fold_left derived ds b) = op_adapter b /\
  rooms (fold_left derived ds b) = rooms b ∪ intent_rooms ds /\
  exceptRooms (fold_left derived ds b) = exceptRooms b ∪ intent_except ds.
Proof.
  unfold intent_rooms, intent_except.
  induction ds as [|d ds IH]; intros b; simpl.
  - by rewrite !union_empty_r_L.
  - destruct (IH (derived b d)) as (-> & -> & ->). simpl.
    by rewrite <- !(assoc_L (∪)).
Qed.

Lemma chain_derived ds : forall l w b,
  operators w !! l = Some b ->
  exists l' w',
    chain l ds w = Some (l', w') /\
    operators w' !! l' = Some (fold_left derived ds b) /\
    adapters w' = adapters w /\ nsp w' = nsp w.
Proof.
  induction ds as [|d ds IH]; intros l w b Hl; simpl.
  - by exists l, w.
  - unfold call_operator. rewrite Hl, derive_new. simpl.
    edestruct (IH (length (operators w))
                  (with_operators (fun ops => ops ++ [derived b d]) w)
                  (derived b d)) as (l' & w' & Hc & Hb & Ha & Hn).
    { simpl. by apply list_lookup_middle. }
    by exists l', w'.
Qed.

(** C3: whatever the sequence of [to], [in], [except] (and flag) calls an
    operator was built with, starting on the namespace, a terminal call on
    it matches the endpoints of the namespace that are members of some
    room handed to [to] or [in], all of them when there was none, and
    members of no room handed to [except]. *)
Theorem build_targets (d : Derive) (ds : list Derive) (w : World) :
  exists l w' b,
    build d ds w = Some (l, w') /\
    operators w' !! l = Some b /\
    op_adapter b = adapter (nsp w) /\
    adapters w' = adapters w /\
    rooms b = intent_rooms (d :: ds) /\
    exceptRooms b = intent_except (d :: ds) /\
    forall sid,
      sid ∈ Operator.allSockets b w' <->
      matches (adapters w (adapter (nsp w)))
        (intent_rooms (d :: ds)) (intent_except (d :: ds)) sid.
Proof.
  unfold build. rewrite on_fresh_derive, derive_new.
  set (b0 := derived (Operator.fresh (adapter (nsp w))) d).
  set (w0 := snd (Operator.new (Operator.fresh (adapter (nsp w))) w)).
  simpl.
  edestruct (chain_derived ds (length (operators w0))
               (with_operators (fun ops => ops ++ [b0]) w0) b0)
    as (l & w' & Hc & Hb & Ha & Hn).
  { simpl. by apply list_lookup_middle. }
  destruct (derived_fold ds b0) as (Had & Hrs & Hex).
  assert (rooms (fold_left derived ds b0) = intent_rooms (d :: ds)) as Hrs'.
  { rewrite Hrs. unfold intent_rooms, b0. simpl. by rewrite union_empty_l_L. }
  assert (exceptRooms (fold_left derived ds b0) = intent_except (d :: ds)) as Hex'.
  { rewrite Hex. unfold intent_except, b0. simpl. by rewrite union_empty_l_L. }
  exists l, w', (fold_left derived ds b0).
  split; [done|]. split; [done|]. split; [by rewrite Had|].
  split; [by rewrite Ha|]. split; [done|]. split; [done|].
  intros sid. unfold Operator.allSockets. rewrite Ha, Had, Hrs', Hex'.
  apply adapter_sockets_matches.
Qed.

(** ** Emitting *)

Lemma emit_unfold ev args w :
  emit ev args w =
    Operator.emit (Operator.fresh (adapter (nsp w))) ev args
      (snd (Operator.new (Operator.fresh (adapter (nsp w))) w)).
Proof. reflexivity. Qed.

(** C6: [emit] on the namespace with a reserved event name throws, and
    the adapter has received no broadcast. *)
Theorem emit_reserved_rejected (ev : string) (args : list JsVal) (w : World) :
  ev ∈ ["connect"; "connecting"; "connection"; "disconnect"; "disconnecting";
        "newListener"; "removeListener"] ->
  (exists msg, fst (emit ev args w) = Thrown msg) /\
  adapters (snd (emit ev args w)) = adapters w /\
  forall a, broadcasts (adapters (snd (emit ev args w)) a) = broadcasts (adapters w a).
Proof.
  intros Hev. rewrite emit_unfold. unfold Operator.emit.
  rewrite bool_decide_eq_true_2 by exact Hev. simpl. eauto.
Qed.

Lemma emit_reserved_rejected_witness :
  (exists msg, fst (emit "connect" [JStr "hi"] (example_world [] "open" 4)) = Thrown msg) /\
  adapters (snd (emit "connect" [JStr "hi"] (example_world [] "open" 4))) =
    adapters (example_world [] "open" 4).
Proof.
  destruct (emit_reserved_rejected "connect" [JStr "hi"] (example_world [] "open" 4))
    as (Hm & Ha & _).
  - apply list_elem_of_here.
  - split; [exact Hm | exact Ha].
Defined.

(** C9: [emit] on the namespace with an event name that is not reserved
    returns [true], whatever the adapter holds. *)
Theorem emit_returns_true (ev : string) (args : list JsVal) (w : World) :
  ev ∉ RESERVED_EVENTS ->
  fst (emit ev args w) = Returned true.
Proof.
  intros Hev. rewrite emit_unfold. unfold Operator.emit.
  by rewrite bool_decide_eq_false_2 by exact Hev.
Qed.

Lemma emit_returns_true_witness :
  fst (emit "greet" [JStr "hi"] (example_world [] "open" 4)) = Returned true.
Proof.
  apply (emit_returns_true "greet" [JStr "hi"] (example_world [] "open" 4)).
  unfold RESERVED_EVENTS. intros Hin.
  repeat (apply elem_of_cons in Hin as [Hin|Hin]; [discriminate|]).
  by apply elem_of_nil in Hin.
Defined.

(** ** An admission whose transport has gone *)

Lemma same_but_debug_trans w1 w2 w3 :
  same_but_debug w1 w2 -> same_but_debug w2 w3 -> same_but_debug w1 w3.
Proof. intros (?&?&?&?&?&?) (?&?&?&?&?&?). repeat split; congruence. Qed.

Lemma deferred_all_closed client ts : forall w,
  Forall (fun t => t_client t = client) ts ->
  readyState (conns w (conn client)) ≠ "open" ->
  same_but_debug w (fold_left (fun w t => deferred t w) ts w).
Proof.
  induction ts as [|t ts IH]; intros w Hts Hst; simpl.
  - by repeat split.
  - apply Forall_cons in Hts as [Ht Hts].
    assert (deferred t w = debug "next called after client was closed - ignoring socket" w) as ->.
    { apply deferred_closed. by rewrite Ht. }
    eapply same_but_debug_trans; [apply debug_same|]. by apply IH.
Qed.

Lemma run_tasks_extends code socket client fn w :
  extends is_call (fun t => t_client t = client) (fun _ => True)
    w (run code socket (completion socket client fn) w).
Proof.
  unfold run. destruct (_fns (nsp w)) as [|f rest].
  - by apply extends_next_tick.
  - apply run_from_extends.
    + intros j g _ _. split; [by eexists _, _, _|done].
    + intros. by apply extends_next_tick.
    + intros. by apply extends_next_tick.
Qed.

(** C4: when the transport is not open as the deferred completions of an
    admission run, whatever the chain ended with, they do nothing but
    write a debug line: [sockets] is as it was before the admission, the
    namespace is as the chain left it, and the only calls made are those
    to the middleware: none to [_error], [_onconnect], the callback or the
    listeners of [connect] and [connection]. *)
Theorem admission_not_open_abandoned
    (code : MwId -> Socket -> list MwAct) (w : World)
    (sid : string) (client : Client) (query : JsVal) (fn : option CbId) :
  let w1 := snd (_add code sid client query fn w) in
  let w' := run_ticks w1 in
  ticks w = [] ->
  readyState (conns w1 (conn client)) ≠ "open" ->
  sockets (nsp w') = sockets (nsp w) /\
  nsp w' = nsp w1 /\
  trace w' = trace w1 /\
  exists evs, trace w' = trace w ++ evs /\ Forall is_call evs.
Proof.
  intros w1 w' Hq Hst. subst w' w1. rewrite _add_unfold in *. simpl snd in *.
  set (socket := {| socket_id := sid |}) in *. set (w0 := debug _ w) in *.
  destruct (run_tasks_extends code socket client fn w0)
    as ([Hs (evs & Ht & Hp)] & (ts & Hts & HQ) & _).
  set (w1 := run _ _ _ w0) in *.
  unfold run_ticks. simpl in Hts. rewrite Hq in Hts. rewrite Hts. simpl.
  destruct (deferred_all_closed client ts (with_ticks (fun _ => []) w1) HQ Hst)
    as (Hn' & _ & _ & Ht' & _).
  rewrite Hn', Ht'. simpl. split; [done|]. split; [done|]. split; [done|].
  by exists evs.
Qed.

Lemma admission_not_open_abandoned_witness :
  let w' := run_ticks (snd (_add example_code "s1" {| conn := 0 |} JUndefined (Some 7)
                              (example_world [0; 1] "closed" 4))) in
  sockets (nsp w') = ∅ /\
  exists evs, trace w' = [] ++ evs /\ Forall is_call evs.
Proof.
  cbv zeta.
  destruct (admission_not_open_abandoned example_code
              (example_world [0; 1] "closed" 4) "s1" {| conn := 0 |} JUndefined (Some 7))
    as (Hs & _ & _ & Hevs).
  - reflexivity.
  - simpl. discriminate.
  - split; [exact Hs | exact Hevs].
Defined.

Example admission_not_open_abandoned_run :
  let w' := run_ticks (snd (_add example_code "s1" {| conn := 0 |} JUndefined (Some 7)
                              (example_world [0; 1] "closed" 4))) in
  trace w' = [MiddlewareCall 0 0 "s1"; MiddlewareCall 1 1 "s1"] /\
  debug_log w' =
    ["adding socket to nsp /";
     "next called after client was closed - ignoring socket"].
Proof. cbv zeta. split; reflexivity. Qed.

(** A middleware that calls its continuation without an error and then
    with one does not signal an error in the sense above: the rest of the
    chain has run by the time the error arrives, and both completions are
    acted upon. *)
Example proceed_then_abort_run :
  let code := fun (f : MwId) (_ : Socket) =>
    match f with
    | 0 => [ActNext None; ActNext (Some {| message := "late"; data := JUndefined |})]
    | _ => [ActNext None]
    end in
  let w' := run_ticks (snd (_add code "s1" {| conn := 0 |} JUndefined None
                              (example_world [0; 1] "open" 4))) in
  signals_error (code 0 (example_socket "s1")) = false /\
  trace w' =
    [MiddlewareCall 0 0 "s1"; MiddlewareCall 1 1 "s1";
     SocketsSet "s1"; SocketOnconnect "s1";
     SuperEmit "connect" "s1"; SuperEmit "connection" "s1";
     SocketError "s1" (JObj [("message", JStr "late"); ("data", JUndefined)])].
Proof. cbv zeta. split; reflexivity. Qed.

(** * Further properties of the admission pipeline *)

(** ** What [run] can and cannot touch *)

Section Preserved.

Variable R : World -> World -> Prop.
Hypothesis R_refl : forall w, R w w.
Hypothesis R_trans : forall w1 w2 w3, R w1 w2 -> R w2 w3 -> R w1 w3.
Hypothesis R_event : forall e w, R w (emit_event e w).
Hypothesis R_use : forall g w, R w (use g w).
Hypothesis R_ready : forall c st w, R w (set_ready_state c st w).

Variable code : MwId -> Socket -> list MwAct.
Variables (socket : Socket) (fn : option ExtendedError -> World -> World).
Hypothesis R_fn : forall err w, R w (fn err w).

Lemma exec_body_preserved next body :
  (forall err w, R w (next err w)) -> forall w, R w (exec_body next body w).
Proof.
  intros Hnext. unfold exec_body.
  induction body as [|a body IH]; intros w; simpl; [apply R_refl|].
  eapply R_trans; [|apply IH]. destruct a; simpl; auto.
Qed.

Lemma run_from_preserved rest : forall i f w,
  R w (run_from code socket fn i f rest w).
Proof.
  induction rest as [|g rest IH]; intros i f w; simpl; unfold call_middleware;
    (eapply R_trans; [apply R_event|]); apply exec_body_preserved;
    intros [e|] w'; auto.
Qed.

Lemma run_preserved w : R w (run code socket fn w).
Proof.
  unfold run. destruct (_fns (nsp w)); [apply R_fn|apply run_from_preserved].
Qed.

End Preserved.

Lemma chain_only_trans w1 w2 w3 :
  chain_only w1 w2 -> chain_only w2 w3 -> chain_only w1 w3.
Proof. intros (?&?&?&?&?&?) (?&?&?&?&?&?). repeat split; congruence. Qed.

Lemma run_chain_only code socket client fn w :
  chain_only w (run code socket (completion socket client fn) w).
Proof.
  apply run_preserved;
    first [apply chain_only_trans | intros; by repeat split].
Qed.

Lemma run_tasks_of code socket client fn w :
  extends is_call
    (fun t => t_socket t = socket /\ t_client t = client /\ t_fn t = fn)
    (fun _ => True)
    w (run code socket (completion socket client fn) w).
Proof.
  unfold run. destruct (_fns (nsp w)) as [|f rest].
  - by apply extends_next_tick.
  - apply run_from_extends.
    + intros j g _ _. split; [by eexists _, _, _|done].
    + intros. by apply extends_next_tick.
    + intros. by apply extends_next_tick.
Qed.

(** X1: [_add] hands back the session it built and registers nothing
    itself: when it returns, [sockets] is as it was and the only calls
    made are calls of middleware; registration, rejection and the
    notifications are left to the next tick. *)
Theorem _add_defers_registration
    (code : MwId -> Socket -> list MwAct) (w : World)
    (sid : string) (client : Client) (query : JsVal) (fn : option CbId) :
  let r := _add code sid client query fn w in
  fst r = {| socket_id := sid; socket_client := client; socket_query := query |} /\
  chain_only w (snd r) /\
  (exists evs, trace (snd r) = trace w ++ evs /\ Forall is_call evs) /\
  (exists ts, ticks (snd r) = ticks w ++ ts /\
     Forall (fun t => t_socket t = fst r /\ t_client t = client /\ t_fn t = fn) ts).
Proof.
  cbv zeta. rewrite _add_unfold. simpl fst. simpl snd.
  set (socket := {| socket_id := sid |}). set (w0 := debug _ w).
  split; [done|]. split.
  - apply (chain_only_trans w w0); [by repeat split|apply run_chain_only].
  - destruct (run_tasks_of code socket client fn w0)
      as ([_ Hevs] & Hts & _). done.
Qed.

(** ** Chains that reject, and chains that never answer *)

Lemma exec_body_rejects next body e : forall w,
  rejects body = Some e ->
  exists w1, same_log w w1 /\ same_log (next (Some e) w1) (exec_body next body w).
Proof.
  induction body as [|a body IH]; intros w Hr; simpl in Hr; [done|].
  destruct a as [[e'|]|h|c st]; try done.
  - destruct (quiet body) eqn:Hq; [|done]. inversion Hr; subst.
    exists w. split; [done|]. by apply (exec_body_quiet next body).
  - destruct (IH (use h w) Hr) as (w1 & H1 & H2). exists w1.
    split; [|done]. eapply same_log_trans; [|done]. done.
  - destruct (IH (set_ready_state c st w) Hr) as (w1 & H1 & H2). exists w1.
    split; [|done]. eapply same_log_trans; [|done]. done.
Qed.

(** Through a prefix of middleware that proceed, [run] gets to the
    middleware after it, having called the prefix in order and nothing
    else. *)
Lemma run_from_prefix code socket fn f post pre : forall i h t w,
  h :: t = pre ++ f :: post ->
  (forall g, g ∈ pre -> proceeds (code g socket) = true) ->
  exists w1,
    sockets (nsp w1) = sockets (nsp w) /\
    trace w1 = trace w ++ calls_from (socket_id socket) i pre /\
    ticks w1 = ticks w /\
    same_log (run_from code socket fn (i + length pre) f post w1)
             (run_from code socket fn i h t w).
Proof.
  induction pre as [|p pre IH]; intros i h t w Heq Hall; simpl in Heq.
  - inversion Heq; subst. exists w. simpl.
    rewrite app_nil_r, Nat.add_0_r. by repeat split.
  - inversion Heq; subst. rewrite (run_from_unfold code socket fn i p).
    unfold call_middleware.
    match goal with |- context [exec_body ?n ?b ?w0] =>
      destruct (exec_body_proceeds n b w0)
        as (wa & (Hs1 & Ht1 & Hq1) & Hafter);
        [apply Hall, list_elem_of_here|]
    end.
    destruct (pre ++ f :: post) as [|h' t'] eqn:Hrest.
    { by destruct pre. }
    simpl in Hafter.
    destruct (IH (i + 1) h' t' wa eq_refl) as (w1 & Hs2 & Ht2 & Hq2 & Hlog).
    { intros g Hg. by apply Hall, list_elem_of_further. }
    exists w1. simpl in *.
    replace (i + S (length pre)) with (i + 1 + length pre) by lia.
    split; [congruence|]. split; [|split; [congruence|]].
    + rewrite Ht2, Ht1. simpl. rewrite <- app_assoc. simpl.
      unfold calls_from. simpl. rewrite Nat.add_0_r. do 2 f_equal.
      apply imap_ext. intros j x _. simpl. f_equal. lia.
    + eapply same_log_trans; [exact Hlog|exact Hafter].
Qed.

Lemma run_from_rejecting code socket client fn f post e i w :
  rejects (code f socket) = Some e ->
  let w' := run_from code socket (completion socket client fn) i f post w in
  sockets (nsp w') = sockets (nsp w) /\
  trace w' = trace w ++ [MiddlewareCall i f (socket_id socket)] /\
  ticks w' = ticks w ++ [{| t_socket := socket; t_client := client;
                            t_err := Some e; t_fn := fn |}].
Proof.
  intros Hr. cbv zeta. rewrite run_from_unfold. unfold call_middleware.
  match goal with |- context [exec_body ?n ?b ?w0] =>
    destruct (exec_body_rejects n b e w0 Hr)
      as (wa & (Hs1 & Ht1 & Hq1) & (Hs2 & Ht2 & Hq2))
  end.
  simpl in *. rewrite Hs2, Ht2, Hq2, Hs1, Ht1, Hq1. done.
Qed.

Lemma run_from_silent code socket fn f post i w :
  quiet (code f socket) = true ->
  let w' := run_from code socket fn i f post w in
  sockets (nsp w') = sockets (nsp w) /\
  trace w' = trace w ++ [MiddlewareCall i f (socket_id socket)] /\
  ticks w' = ticks w.
Proof.
  intros Hq. cbv zeta. rewrite run_from_unfold. unfold call_middleware.
  match goal with |- context [exec_body ?n ?b ?w0] =>
    destruct (exec_body_quiet n b w0 Hq) as (Hs & Ht & Hk)
  end.
  simpl in *. by rewrite Hs, Ht, Hk.
Qed.

Lemma calls_from_snoc sid pre f :
  calls_from sid 0 pre ++ [MiddlewareCall (length pre) f sid] =
  calls_from sid 0 (pre ++ [f]).
Proof.
  unfold calls_from. rewrite imap_app. simpl. by rewrite Nat.add_0_r.
Qed.

(** X2: when the middleware before [f] in the chain all proceed and [f]
    rejects with [e], the admission calls the chain up to [f] and no
    further; with the transport open at the next tick the session is
    sent the payload of [e], once, and [sockets] is unchanged. *)
Theorem first_rejection_is_delivered
    (code : MwId -> Socket -> list MwAct) (w : World)
    (sid : string) (client : Client) (query : JsVal) (fn : option CbId)
    (pre post : list MwId) (f : MwId) (e : ExtendedError) :
  let socket := {| socket_id := sid; socket_client := client;
                   socket_query := query |} in
  let w1 := snd (_add code sid client query fn w) in
  let w' := run_ticks w1 in
  ticks w = [] ->
  _fns (nsp w) = pre ++ f :: post ->
  (forall g, g ∈ pre -> proceeds (code g socket) = true) ->
  rejects (code f socket) = Some e ->
  readyState (conns w1 (conn client)) = "open" ->
  trace w' =
    trace w ++ calls_from sid 0 (pre ++ [f]) ++
    [SocketError sid (error_payload (conns w1 (conn client)) e)] /\
  sockets (nsp w') = sockets (nsp w) /\
  ticks w' = [].
Proof.
  intros socket w1 w' Hq Hfns Hall Hrej Hst. subst w' w1.
  rewrite _add_unfold in *. simpl snd in *. fold socket in Hst |- *.
  set (w0 := debug _ w) in *. unfold run in *.
  change (_fns (nsp w0)) with (_fns (nsp w)) in *.
  destruct (_fns (nsp w)) as [|h t] eqn:Hch; [by destruct pre|].
  destruct (run_from_prefix code socket (completion socket client fn)
              f post pre 0 h t w0 Hfns Hall)
    as (wa & Hs1 & Ht1 & Hq1 & (Hs2 & Ht2 & Hq2)).
  destruct (run_from_rejecting code socket client fn f post e
              (0 + length pre) wa Hrej) as (Hs3 & Ht3 & Hq3).
  set (w1 := run_from _ _ _ 0 h t w0) in *.
  unfold run_ticks. rewrite Hq2, Hq3, Hq1. simpl. rewrite Hq. simpl.
  set (tk := {| t_socket := socket |}).
  rewrite (deferred_error tk (with_ticks (fun _ => []) w1) e Hst eq_refl).
  simpl. rewrite Ht2, Hs2, Ht3, Hs3, Ht1, Hs1. simpl.
  split; [|done]. rewrite <- calls_from_snoc, <- !app_assoc. done.
Qed.

Lemma first_rejection_is_delivered_witness :
  let w' := run_ticks (snd (_add example_code "s1" {| conn := 0 |} JUndefined None
                              (example_world [0; 2; 1; 4] "open" 3))) in
  trace w' =
    [MiddlewareCall 0 0 "s1"; MiddlewareCall 1 2 "s1"; MiddlewareCall 2 1 "s1";
     SocketError "s1" (JStr "auth failed")] /\
  sockets (nsp w') = ∅ /\ ticks w' = [].
Proof.
  cbv zeta.
  apply (first_rejection_is_delivered example_code
           (example_world [0; 2; 1; 4] "open" 3) "s1" {| conn := 0 |} JUndefined
           None [0; 2] [4] 1 {| message := "auth failed"; data := JUndefined |}).
  - reflexivity.
  - reflexivity.
  - intros g Hg.
    apply elem_of_cons in Hg as [->|Hg]; [reflexivity|].
    apply list_elem_of_singleton in Hg as ->. reflexivity.
  - reflexivity.
  - reflexivity.
Defined.

(** X3: when the middleware before [f] all proceed and [f] never calls
    its continuation, the admission stays pending: the chain is called up
    to [f], no completion is scheduled, and nothing is registered or sent. *)
Theorem silent_middleware_leaves_admission_pending
    (code : MwId -> Socket -> list MwAct) (w : World)
    (sid : string) (client : Client) (query : JsVal) (fn : option CbId)
    (pre post : list MwId) (f : MwId) :
  let socket := {| socket_id := sid; socket_client := client;
                   socket_query := query |} in
  let w1 := snd (_add code sid client query fn w) in
  _fns (nsp w) = pre ++ f :: post ->
  (forall g, g ∈ pre -> proceeds (code g socket) = true) ->
  quiet (code f socket) = true ->
  trace w1 = trace w ++ calls_from sid 0 (pre ++ [f]) /\
  ticks w1 = ticks w /\
  sockets (nsp w1) = sockets (nsp w).
Proof.
  intros socket w1 Hfns Hall Hquiet. subst w1.
  rewrite _add_unfold. simpl snd. fold socket.
  set (w0 := debug _ w). unfold run.
  change (_fns (nsp w0)) with (_fns (nsp w)).
  destruct (_fns (nsp w)) as [|h t] eqn:Hch; [by destruct pre|].
  destruct (run_from_prefix code socket (completion socket client fn)
              f post pre 0 h t w0 Hfns Hall)
    as (wa & Hs1 & Ht1 & Hq1 & (Hs2 & Ht2 & Hq2)).
  destruct (run_from_silent code socket (completion socket client fn) f post
              (0 + length pre) wa Hquiet) as (Hs3 & Ht3 & Hq3).
  rewrite Ht2, Hs2, Hq2, Ht3, Hs3, Hq3, Ht1, Hs1, Hq1. simpl.
  split; [|done]. by rewrite <- calls_from_snoc, <- !app_assoc.
Qed.

Lemma silent_middleware_leaves_admission_pending_witness :
  let code := fun (f : MwId) (_ : Socket) =>
    match f with 5 => [ActUse 9] | _ => [ActNext None] end in
  let w1 := snd (_add code "s1" {| conn := 0 |} JUndefined None
                   (example_world [0; 5; 4] "open" 4)) in
  trace w1 = [MiddlewareCall 0 0 "s1"; MiddlewareCall 1 5 "s1"] /\
  ticks w1 = [] /\ sockets (nsp w1) = ∅.
Proof.
  cbv zeta.
  apply (silent_middleware_leaves_admission_pending
           (fun (f : MwId) (_ : Socket) =>
              match f with 5 => [ActUse 9] | _ => [ActNext None] end)
           (example_world [0; 5; 4] "open" 4) "s1" {| conn := 0 |} JUndefined
           None [0] [4] 5).
  - reflexivity.
  - intros g Hg. apply list_elem_of_singleton in Hg as ->. reflexivity.
  - reflexivity.
Defined.

(** ** One completion, one ending *)

Lemma next_calls_none_quiet body : next_calls body = 0 -> quiet body = true.
Proof.
  induction body as [|a body IH]; simpl; [done|].
  destruct (is_next a); simpl; [discriminate|]. intros H. by apply IH.
Qed.

Lemma exec_body_completes_once next body : forall w,
  (forall r w, exists ts, ticks (next r w) = ticks w ++ ts /\ length ts <= 1) ->
  next_calls body <= 1 ->
  exists ts, ticks (exec_body next body w) = ticks w ++ ts /\ length ts <= 1.
Proof.
  intros w Hnext. revert w.
  induction body as [|a body IH]; intros w Hn; simpl in Hn.
  - exists []. by rewrite app_nil_r.
  - destruct a as [r|h|c st]; simpl in Hn.
    + destruct (Hnext r w) as (ts & Hts & Hlen).
      destruct (exec_body_quiet next body (next r w)) as (_ & _ & Hq).
      { apply next_calls_none_quiet. lia. }
      exists ts. split; [|done]. unfold exec_body in *. simpl. by rewrite Hq.
    + apply (IH (use h w)). lia.
    + apply (IH (set_ready_state c st w)). lia.
Qed.

Lemma run_from_completes_once code socket client fn rest : forall i f w,
  (forall g, g ∈ f :: rest -> next_calls (code g socket) <= 1) ->
  exists ts,
    ticks (run_from code socket (completion socket client fn) i f rest w) =
      ticks w ++ ts /\ length ts <= 1.
Proof.
  induction rest as [|g rest IH]; intros i f w Hall;
    rewrite run_from_unfold; unfold call_middleware;
    change (ticks w)
      with (ticks (emit_event (MiddlewareCall i f (socket_id socket)) w));
    (apply exec_body_completes_once; [|apply Hall, list_elem_of_here]);
    intros [e|] w'; simpl; try (eexists [_]; split; [done|simpl; lia]).
  apply IH. intros g' Hg'. by apply Hall, list_elem_of_further.
Qed.

(** X4: when no middleware of the chain calls its continuation more than
    once, an admission schedules at most one completion, and past the
    middleware calls it ends in exactly one of three ways: nothing (still
    pending, or abandoned because the transport is not open), one error
    payload, or one connect sequence. *)
Theorem admission_ends_one_way
    (code : MwId -> Socket -> list MwAct) (w : World)
    (sid : string) (client : Client) (query : JsVal) (fn : option CbId) :
  let socket := {| socket_id := sid; socket_client := client;
                   socket_query := query |} in
  let w1 := snd (_add code sid client query fn w) in
  let w' := run_ticks w1 in
  ticks w = [] ->
  (forall g, g ∈ _fns (nsp w) -> next_calls (code g socket) <= 1) ->
  length (ticks w1) <= 1 /\
  exists evs tail,
    trace w' = trace w ++ evs ++ tail /\
    Forall is_call evs /\
    (tail = [] \/ (exists p, tail = [SocketError sid p]) \/
     tail = success_events sid fn).
Proof.
  intros socket w1 w' Hq Hall. subst w' w1.
  rewrite _add_unfold. simpl snd. fold socket. set (w0 := debug _ w).
  destruct (run_tasks_of code socket client fn w0)
    as ([_ (evs & Ht & Hp)] & (ts & Hts & HQ) & _).
  assert (length ts <= 1) as Hlen.
  { revert Hts. unfold run. change (_fns (nsp w0)) with (_fns (nsp w)).
    destruct (_fns (nsp w)) as [|f rest]; simpl; rewrite Hq; simpl.
    - intros <-. simpl. lia.
    - destruct (run_from_completes_once code socket client fn rest 0 f w0 Hall)
        as (ts' & Hts' & Hlen'). rewrite Hts'. simpl. rewrite Hq. simpl.
      by intros ->. }
  set (w1 := run _ _ _ w0) in *. simpl in Hts, Ht. rewrite Hq in Hts.
  simpl in Hts. split; [by rewrite Hts|].
  unfold run_ticks. rewrite Hts. exists evs.
  destruct ts as [|t [|t' ts]]; simpl in Hlen; [| |lia].
  { exists []. simpl. rewrite Ht, app_nil_r. auto. }
  apply Forall_singleton in HQ as (Hsock & Hcl & Hfn). simpl.
  set (w2 := with_ticks (fun _ => []) w1).
  destruct (decide (readyState (conns w2 (conn (t_client t))) = "open")) as [Hst|Hst].
  - destruct (t_err t) as [e|] eqn:He.
    + eexists [_]. rewrite (deferred_error t w2 e Hst He). simpl.
      rewrite Ht, Hsock, <- app_assoc. simpl. split; [done|]. split; [done|].
      right. left. by eexists.
    + exists (success_events sid fn).
      destruct (deferred_success_effects t w2 Hst He) as [-> _].
      simpl. rewrite Ht, Hsock, Hfn, <- app_assoc. simpl. auto.
  - exists []. rewrite (deferred_closed t w2 Hst). simpl.
    rewrite Ht, app_nil_r. auto.
Qed.

Lemma admission_ends_one_way_witness :
  let w' := run_ticks (snd (_add example_code "s1" {| conn := 0 |} JUndefined None
                              (example_world [0; 1] "open" 4))) in
  exists evs tail,
    trace w' = [] ++ evs ++ tail /\
    Forall is_call evs /\
    (tail = [] \/ (exists p, tail = [SocketError "s1" p]) \/
     tail = success_events "s1" None).
Proof.
  cbv zeta.
  destruct (admission_ends_one_way example_code (example_world [0; 1] "open" 4)
              "s1" {| conn := 0 |} JUndefined None) as [_ H].
  - reflexivity.
  - intros g Hg. simpl in Hg.
    apply elem_of_cons in Hg as [->|Hg]; [simpl; lia|].
    apply list_elem_of_singleton in Hg as ->. simpl. lia.
  - exact H.
Defined.

(** ** What an admission leaves alone *)

Lemma others_kept_refl sid w : others_kept sid w w.
Proof. by repeat split. Qed.

Lemma others_kept_trans sid w1 w2 w3 :
  others_kept sid w1 w2 -> others_kept sid w2 w3 -> others_kept sid w1 w3.
Proof.
  intros (?&?&?&?&?&Hk1) (?&?&?&?&?&Hk2). repeat split; try congruence.
  intros id Hid. by rewrite Hk2, Hk1.
Qed.

Lemma chain_only_others_kept sid w w' : chain_only w w' -> others_kept sid w w'.
Proof. intros (?&Hs&?&?&?&?). repeat split; try done. intros. by rewrite Hs. Qed.

Lemma deferred_others_kept t w :
  others_kept (socket_id (t_socket t)) w (deferred t w).
Proof.
  destruct (decide (readyState (conns w (conn (t_client t))) = "open")) as [Hst|Hst].
  - destruct (t_err t) as [e|] eqn:He.
    + rewrite (deferred_error t w e Hst He). by repeat split.
    + rewrite (deferred_success t w Hst He).
      destruct (t_fn t); repeat split; intros id Hid; simpl;
        by rewrite lookup_insert_ne.
  - rewrite (deferred_closed t w Hst). by repeat split.
Qed.

Lemma deferred_all_others_kept socket ts : forall w,
  Forall (fun t => t_socket t = socket) ts ->
  others_kept (socket_id socket) w (fold_left (fun w t => deferred t w) ts w).
Proof.
  induction ts as [|t ts IH]; intros w Hts; simpl; [apply others_kept_refl|].
  apply Forall_cons in Hts as [<- Hts].
  eapply others_kept_trans; [apply deferred_others_kept|by apply IH].
Qed.

(** X5: whatever the middleware do and however the admission of the
    session [sid] ends, the namespace's name, adapter and counter, the
    operators and the adapters are as before, and so is the entry of
    every other identifier in [sockets]; the tick queue is empty again. *)
Theorem admission_keeps_everything_else
    (code : MwId -> Socket -> list MwAct) (w : World)
    (sid : string) (client : Client) (query : JsVal) (fn : option CbId) :
  let w' := run_ticks (snd (_add code sid client query fn w)) in
  ticks w = [] ->
  others_kept sid w w' /\ ticks w' = [].
Proof.
  intros w' Hq. subst w'.
  destruct (_add_defers_registration code w sid client query fn)
    as (Hfst & Hchain & _ & (ts & Hts & HQ)).
  set (w1 := snd _) in *. rewrite Hfst in HQ. rewrite Hq in Hts. simpl in Hts.
  unfold run_ticks. rewrite Hts.
  set (socket := {| socket_id := sid |}) in *.
  assert (Forall (fun t => t_socket t = socket) ts) as HQ'.
  { eapply Forall_impl; [exact HQ|]. by intros t (? & _). }
  split.
  - eapply others_kept_trans; [by apply chain_only_others_kept|].
    eapply others_kept_trans;
      [|apply (deferred_all_others_kept socket ts _ HQ')].
    by repeat split.
  - clear Hts HQ. generalize (with_ticks (fun _ => []) w1) (eq_refl : ticks (with_ticks (fun _ : list Task => []) w1) = []).
    induction ts as [|t ts IH]; intros w2 Hw2; simpl; [done|].
    apply Forall_cons in HQ' as [_ HQ']. apply IH; [done|].
    unfold deferred.
    destruct (String.eqb _ _); [|done].
    destruct (t_err t); [by destruct (protocol _ =? 3)%Z|].
    by destruct (t_fn t).
Qed.

Lemma admission_keeps_everything_else_witness :
  let w := with_nsp (set_sockets (insert "s0" (example_socket "s0")))
             (example_world [0; 2] "open" 4) in
  let w' := run_ticks (snd (_add example_code "s1" {| conn := 0 |} JUndefined None w)) in
  others_kept "s1" w w' /\ ticks w' = [].
Proof.
  cbv zeta.
  apply (admission_keeps_everything_else example_code
           (with_nsp (set_sockets (insert "s0" (example_socket "s0")))
              (example_world [0; 2] "open" 4))
           "s1" {| conn := 0 |} JUndefined None).
  reflexivity.
Defined.

(** ** Removal as deletion *)

Lemma _remove_sockets socket w :
  sockets (nsp (_remove socket w)) = delete (socket_id socket) (sockets (nsp w)).
Proof.
  unfold _remove.
  destruct (decide (is_Some (sockets (nsp w) !! socket_id socket))) as [|Hn];
    simpl; [done|].
  symmetry. apply delete_id. by apply eq_None_not_Some.
Qed.

(** X6: [_remove] takes exactly the entry of the session's identifier
    out of [sockets], whichever branch it takes: that identifier is absent
    afterwards, every other entry is as before, and the chain, the
    adapter, the transports, the tick queue and the operators are
    untouched; a deletion is recorded only when there was an entry. *)
Theorem _remove_deletes_only_its_entry (socket : Socket) (w : World) :
  let w' := _remove socket w in
  sockets (nsp w') = delete (socket_id socket) (sockets (nsp w)) /\
  sockets (nsp w') !! socket_id socket = None /\
  (forall id, id <> socket_id socket ->
     sockets (nsp w') !! id = sockets (nsp w) !! id) /\
  dom (sockets (nsp w')) = dom (sockets (nsp w)) ∖ {[ socket_id socket ]} /\
  _fns (nsp w') = _fns (nsp w) /\ others_kept (socket_id socket) w w' /\
  conns w' = conns w /\ ticks w' = ticks w /\
  trace w' =
    trace w ++
    (if decide (is_Some (sockets (nsp w) !! socket_id socket))
     then [SocketsDelete (socket_id socket)] else []).
Proof.
  cbv zeta. rewrite _remove_sockets.
  split; [done|]. split; [apply lookup_delete_eq|].
  split; [intros id Hid; by apply lookup_delete_ne|].
  split; [apply dom_delete_L|].
  assert (forall id, id <> socket_id socket ->
            sockets (nsp (_remove socket w)) !! id = sockets (nsp w) !! id) as Hk.
  { intros id Hid. rewrite _remove_sockets. by apply lookup_delete_ne. }
  revert Hk. unfold _remove.
  destruct (decide (is_Some (sockets (nsp w) !! socket_id socket))); simpl;
    intros Hk; repeat split; try done.
  by rewrite app_nil_r.
Qed.

(** X7: removals commute on the registry: removing two sessions in either
    order leaves the same [sockets], the same chain and the same
    namespace fields. *)
Theorem _remove_commutes (a b : Socket) (w : World) :
  nsp (_remove a (_remove b w)) = nsp (_remove b (_remove a w)).
Proof.
  assert (forall s w, nsp (_remove s w) =
            set_sockets (delete (socket_id s)) (nsp w)) as Hn.
  { intros s w0. unfold _remove.
    destruct (decide (is_Some (sockets (nsp w0) !! socket_id s))) as [|Hno];
      simpl; [done|].
    destruct (nsp w0) as [nm sk ad fs ids]; unfold set_sockets; simpl in *.
    f_equal. symmetry. apply delete_id. by apply eq_None_not_Some. }
  rewrite !Hn. unfold set_sockets; simpl. f_equal. apply delete_delete.
Qed.

(** X8: a successful deferred completion followed by [_remove] of a
    session with the same identifier takes the entry out again; when the
    identifier was not registered before, [sockets] is back to what it
    was. *)
Theorem _remove_undoes_registration (t : Task) (s : Socket) (w : World) :
  readyState (conns w (conn (t_client t))) = "open" ->
  t_err t = None ->
  socket_id s = socket_id (t_socket t) ->
  sockets (nsp (_remove s (deferred t w))) =
    delete (socket_id s) (sockets (nsp w)) /\
  (sockets (nsp w) !! socket_id s = None ->
   sockets (nsp (_remove s (deferred t w))) = sockets (nsp w)).
Proof.
  intros Hst He Hid. rewrite _remove_sockets.
  destruct (deferred_success_effects t w Hst He) as [_ ->]. rewrite Hid.
  rewrite delete_insert_eq. split; [done|]. intros Hn. by apply delete_id.
Qed.

Lemma _remove_undoes_registration_witness :
  sockets (nsp (_remove (example_socket "s1")
                  (deferred (example_task "s1" None None)
                     (example_world [] "open" 4)))) = ∅.
Proof.
  destruct (_remove_undoes_registration (example_task "s1" None None)
              (example_socket "s1") (example_world [] "open" 4)
              eq_refl eq_refl eq_refl) as [_ H].
  apply H. reflexivity.
Defined.

(** ** Registration order *)

Lemma use_all_log fs : forall w,
  _fns (nsp (use_all fs w)) = _fns (nsp w) ++ fs /\
  chain_only w (use_all fs w) /\
  trace (use_all fs w) = trace w /\ ticks (use_all fs w) = ticks w.
Proof.
  unfold use_all. induction fs as [|f fs IH]; intros w; simpl.
  - rewrite app_nil_r. by repeat split.
  - destruct (IH (use f w)) as (Hf & Hc & Ht & Hq).
    rewrite Hf, Ht, Hq. simpl. rewrite <- app_assoc. split; [done|].
    split; [|done]. eapply chain_only_trans; [|exact Hc]. by repeat split.
Qed.

(** X9: middleware registered by successive [use] calls go to the end of
    the chain in the order of the calls, and an admission in which every
    middleware proceeds calls the old chain and then the new entries, in
    that order, once each. *)
Theorem use_order_is_call_order
    (code : MwId -> Socket -> list MwAct) (w : World) (fs : list MwId)
    (sid : string) (client : Client) (query : JsVal) (fn : option CbId) :
  let socket := {| socket_id := sid; socket_client := client;
                   socket_query := query |} in
  let w1 := snd (_add code sid client query fn (use_all fs w)) in
  (forall g, g ∈ _fns (nsp w) ++ fs -> proceeds (code g socket) = true) ->
  _fns (nsp (use_all fs w)) = _fns (nsp w) ++ fs /\
  trace w1 = trace w ++ calls_from sid 0 (_fns (nsp w) ++ fs).
Proof.
  intros socket w1 Hall. subst w1.
  destruct (use_all_log fs w) as (Hf & _ & Ht & _). split; [done|].
  rewrite _add_unfold. simpl snd. fold socket.
  set (w0 := debug _ (use_all fs w)).
  destruct (run_proceeds_log code socket client fn w0) as (_ & -> & _).
  { simpl. by rewrite Hf. }
  simpl. by rewrite Ht, Hf.
Qed.

Lemma use_order_is_call_order_witness :
  let w1 := snd (_add example_code "s1" {| conn := 0 |} JUndefined None
                   (use_all [4; 0] (example_world [0] "open" 4))) in
  _fns (nsp (use_all [4; 0] (example_world [0] "open" 4))) = [0; 4; 0] /\
  trace w1 =
    [MiddlewareCall 0 0 "s1"; MiddlewareCall 1 4 "s1"; MiddlewareCall 2 0 "s1"].
Proof.
  cbv zeta.
  apply (use_order_is_call_order example_code (example_world [0] "open" 4)
           [4; 0] "s1" {| conn := 0 |} JUndefined None).
  intros g Hg. simpl in Hg.
  repeat (apply elem_of_cons in Hg as [->|Hg]; [reflexivity|]).
  by apply elem_of_nil in Hg.
Defined.
